(** * pl-isi product scraper: a shallow embedding and its properties

    The repository holds two versions of one script:
      - [src/product_scraper.py], the original, strictly sequential script
        (module [Sequential] below);
      - [src/src/product_scraper.py], the [ThreadPoolExecutor] rewrite
        (module [Pooled] below).
    [_parse_code_and_name], [login], the two blocking fetch wrappers and the
    sort in [save_json] are textually the same in both files and are embedded
    once.

    Conventions.
      - A Python [str] is a [string]; every [ascii] stands for one code point
        below 256 (Latin-1), not for a UTF-8 byte.
      - Console output ([print]) is not modelled.
      - The remote server is an explicit argument: a function from requests
        to replies.  Where the number or the order of requests matters the
        functions also return the list of requests they made. *)

From Stdlib Require Import ZArith Ascii String List Sorted Permutation.
From stdpp Require Import base list strings gmap fin_maps.

Local Open Scope string_scope.
Local Open Scope list_scope.

(** ** Python's [str] methods used by the script *)

Module PyStr.

(** [str.isspace] on one code point below 256: TAB, LF, VT, FF, CR,
    FS, GS, RS, US, SPACE, NEL (0x85) and NBSP (0xA0). *)
Definition isspace (c : ascii) : bool :=
  let n := N_of_ascii c in
  ((9 <=? n) && (n <=? 13) || (28 <=? n) && (n <=? 32)
   || (n =? 133) || (n =? 160))%N.

(** [s.lstrip()] *)
Fixpoint lstrip (s : string) : string :=
  match s with
  | String c s' => if isspace c then lstrip s' else s
  | EmptyString => EmptyString
  end.

(** [s.rstrip()]: a character is kept when it is not white space or when
    something is kept to its right. *)
Fixpoint rstrip (s : string) : string :=
  match s with
  | String c s' =>
      match rstrip s' with
      | EmptyString => if isspace c then EmptyString else String c EmptyString
      | r => String c r
      end
  | EmptyString => EmptyString
  end.

(** [s.strip()] *)
Definition strip (s : string) : string := rstrip (lstrip s).

(** [s.split(sep)] for a one-character separator: never the empty list,
    [''.split('/') == ['']]. *)
Fixpoint split (sep : ascii) (s : string) : list string :=
  match s with
  | String c s' =>
      if Ascii.eqb c sep then EmptyString :: split sep s'
      else match split sep s' with
           | p :: ps => String c p :: ps
           | [] => [String c EmptyString]
           end
  | EmptyString => [EmptyString]
  end.

(** [sep.join(parts)] *)
Fixpoint join (sep : string) (parts : list string) : string :=
  match parts with
  | [] => EmptyString
  | [p] => p
  | p :: ps => p +:+ sep +:+ join sep ps
  end.

(** Truth value of a string: [bool(s)], false exactly for [""]. *)
Definition truthy (s : string) : bool :=
  match s with EmptyString => false | String _ _ => true end.

(** [a or b] on strings. *)
Definition or_else (a b : string) : string := if truthy a then a else b.

End PyStr.

(** ** [_parse_code_and_name] (both files) *)

Definition _parse_code_and_name (text : string) : string * string :=
  let parts :=
    map PyStr.strip
        (List.filter (fun p => PyStr.truthy (PyStr.strip p)) (PyStr.split "/" text)) in
  match parts with
  | [] => ("", PyStr.strip text)
  | code :: rest =>
      (code,
       if (1 <? length parts)%nat then PyStr.join " / " rest else PyStr.strip text)
  end.

(** ** HTTP replies

    [session.post(...)] either raises (connection error, timeout, ...) or
    returns a response with a status code and a body. *)

Inductive reply (B : Type) : Type :=
  | Raises
  | Response (status_code : Z) (body : B).
Arguments Raises {B}.
Arguments Response {B} status_code body.

(** [resp.raise_for_status()] of the requests library raises exactly for the
    client and server error classes; [true] stands for "raises". *)
Definition raise_for_status (status_code : Z) : bool :=
  ((400 <=? status_code) && (status_code <? 600))%Z.

(** ** [login] (both files) *)

Inductive login_result : Type :=
  | Session            (* [return s] *)
  | SysExit (code : Z) (* [sys.exit(code)] *).

(** The form fields of one POST to [LOGIN_URL]. *)
Abbreviation form := (list (string * string)).

(** [os.getenv(name)] is a lookup in the process environment, and
    [not v] holds for [None] and for [""].  [login] returns its result and
    the requests it sent, oldest first. *)
Definition unset_or_empty (v : option string) : bool :=
  match v with Some s => negb (PyStr.truthy s) | None => true end.

Definition login (environ : gmap string string) (post : form -> reply unit)
  : login_result * list form :=
  let username := environ !! "ISLANDSUN_USERNAME" in
  let password := environ !! "ISLANDSUN_PASSWORD" in
  if unset_or_empty username || unset_or_empty password then (SysExit 2, [])
  else
    let user := default "" username in
    let pass := default "" password in
    let first := [("user", user)] in
    match post first with
    | Raises => (SysExit 3, [first])
    | Response _ _ =>
        let second := [("user", user); ("password", pass)] in
        match post second with
        | Raises => (SysExit 3, [first; second])
        | Response status_code _ =>
            if raise_for_status status_code
            then (SysExit 3, [first; second])
            else (Session, [first; second])
        end
    end.

(** ** Search results *)

(** A JSON value found under a key of a result object: a string, or anything
    else, for which only what [str()] prints matters. *)
Inductive value : Type :=
  | VStr (s : string)
  | VOther (printed : string).

Definition py_str (v : value) : string :=
  match v with VStr s => s | VOther printed => printed end.

(** One element of the result list, a [dict]. *)
Abbreviation item := (gmap string value).

(** [str(item.get(k, ""))] *)
Definition get_str (it : item) (k : string) : string :=
  match it !! k with Some v => py_str v | None => "" end.

(** What [resp.json()] returns, as far as [isinstance(data, list)] tells.
    The elements of a list are objects, as the annotation [list[dict]] of
    the wrapper says; a list with other elements is outside the model. *)
Inductive payload : Type :=
  | JList (items : list item)
  | JNotList.

(** [fetch_products_for_term] / [_fetch_products_for_term_blocking]; the body
    of a response is [None] when it is not JSON, so that [resp.json()]
    raises. *)
Definition fetch_products_for_term
    (post : string -> reply (option payload)) (term : string) : list item :=
  match post term with
  | Response status_code (Some (JList items)) =>
      if raise_for_status status_code then [] else items
  | _ => []
  end.

(** ** The catalog: an insertion-ordered [dict] *)

Record entry : Type := { entry_id : string; entry_text : string }.

Abbreviation key := (string * string)%type.

Module PyDict.
(** A [dict] whose order is observed ([list(catalog.values())]): an
    association list in insertion order, with no repeated key. *)
Abbreviation t := (list (key * entry)).

Definition contains (k : key) (d : t) : bool :=
  bool_decide (k ∈ map fst d).

(** [d[k] = v]: a present key keeps its place, a new key goes last. *)
Fixpoint setitem (k : key) (v : entry) (d : t) : t :=
  match d with
  | [] => [(k, v)]
  | (k', v') :: d' =>
      if bool_decide (k' = k) then (k, v) :: d' else (k', v') :: setitem k v d'
  end.

Definition values (d : t) : list entry := map snd d.
End PyDict.

Definition key_of (it : item) : key :=
  (PyStr.strip (get_str it "id"), PyStr.strip (get_str it "text")).

(** The body of [for item in items]. *)
Definition merge_item (catalog : PyDict.t) (it : item) : PyDict.t :=
  let k := key_of it in
  if negb (PyDict.contains k catalog) && PyStr.truthy k.1 && PyStr.truthy k.2
  then PyDict.setitem k {| entry_id := k.1; entry_text := k.2 |} catalog
  else catalog.

(** The body of the loop over terms, given the items fetched for the term. *)
Definition merge_items (catalog : PyDict.t) (items : list item) : PyDict.t :=
  fold_left merge_item items catalog.

(** ** The search terms *)

Definition ascii_lowercase : string := "abcdefghijklmnopqrstuvwxyz".

Definition alphabet : string := "0123456789" +:+ ascii_lowercase.

(** [itertools.product(xs, repeat=2)]: the last position varies fastest. *)
Definition product2 {A : Type} (xs : list A) : list (A * A) :=
  flat_map (fun a => map (fun b => (a, b)) xs) xs.

Definition terms : list string :=
  map (fun p => String p.1 (String p.2 EmptyString))
      (product2 (list_ascii_of_string alphabet)).

(** ** Prices *)

(** [fetch_price] / [_fetch_price_blocking] on the reply to the POST. *)
Definition fetch_price (r : reply string) : string :=
  match r with
  | Response status_code text =>
      if (status_code =? 200)%Z
      then let price := PyStr.strip text in
           if PyStr.truthy price then price else ""
      else ""
  | Raises => ""
  end.

(** The price endpoint may answer the same id differently over time: its
    reply depends on the ids requested before. *)
Abbreviation price_server := (list string -> string -> reply string).

Record enriched_product : Type :=
  { product_name : string; product_code : string; marketing_price : string }.

(** ** [sorted(products, key=...)]

    Python compares the key tuples with [<]: the first unequal components
    decide.  [sorted] is stable; a stable sort has one possible result
    ([sorted_unique] below), so an insertion sort stands for it. *)

Definition tuple_lt (a b : string * string) : bool :=
  if negb (String.eqb a.1 b.1) then String.ltb a.1 b.1
  else if negb (String.eqb a.2 b.2) then String.ltb a.2 b.2
  else false.

Section Sorted.
Context {A K : Type} (sort_key : A -> K) (lt : K -> K -> bool).

Fixpoint insert_sorted (x : A) (l : list A) : list A :=
  match l with
  | [] => [x]
  | y :: l' =>
      if lt (sort_key y) (sort_key x) then y :: insert_sorted x l'
      else x :: y :: l'
  end.

Fixpoint sorted (l : list A) : list A :=
  match l with
  | [] => []
  | x :: l' => insert_sorted x (sorted l')
  end.
End Sorted.

Definition name_code (p : enriched_product) : string * string :=
  (product_name p, product_code p).

(** ** Files *)

Inductive node : Type :=
  | Dir
  | File (content : string).

(** A file system seen from the working directory: a path is the list of
    its components, [[]] is the working directory itself. *)
Abbreviation filesystem := (gmap (list string) node).

Definition path_of (name : string) : list string := PyStr.split "/" name.

Definition parent (p : list string) : list string := removelast p.

Definition is_dir (fs : filesystem) (p : list string) : bool :=
  match p with
  | [] => true
  | _ => match fs !! p with Some Dir => true | _ => false end
  end.

(** [os.makedirs(name, exist_ok=True)]: creates the missing directories
    along the path; [None] when a component exists and is a file. *)
Fixpoint makedirs_from (done todo : list string) (fs : filesystem)
  : option filesystem :=
  match todo with
  | [] => Some fs
  | c :: todo' =>
      let p := done ++ [c] in
      match fs !! p with
      | Some (File _) => None
      | Some Dir => makedirs_from p todo' fs
      | None => makedirs_from p todo' (<[p := Dir]> fs)
      end
  end.

Definition makedirs (name : string) (fs : filesystem) : option filesystem :=
  makedirs_from [] (path_of name) fs.

(** [with open(name, "w") as f: f.write(content)]: needs the directory of
    the file, refuses a directory, replaces the content of a file. *)
Definition open_write (name content : string) (fs : filesystem)
  : option filesystem :=
  let p := path_of name in
  if is_dir fs (parent p) && negb (is_dir fs p)
  then Some (<[p := File content]> fs)
  else None.

(** ** What both versions of [main] report

    The exit status of the process: 0 when [main] returns, the argument of
    [sys.exit], and 1 for an exception nobody catches (a failing
    [open] or [os.makedirs]). *)
Definition EXIT_OK : Z := 0.
Definition EXIT_UNCAUGHT : Z := 1.

(** ** [src/product_scraper.py]: the sequential script *)

Module Sequential.

Definition collect_full_catalog (post : string -> reply (option payload))
  : list entry :=
  let catalog :=
    fold_left
      (fun catalog term => merge_items catalog (fetch_products_for_term post term))
      terms [] in
  PyDict.values catalog.

(** The variables of the loop in [enrich_with_prices], with the ids sent to
    the price endpoint so far ([requested], oldest first). *)
Record enrich_state : Type :=
  { id_to_price : gmap string string;
    enriched : list enriched_product;
    requested : list string }.

(** One round of [for idx, product in enumerate(catalog, start=1)]. *)
Definition enrich_step (server : price_server) (st : enrich_state)
    (product : entry) : enrich_state :=
  let pid := entry_id product in
  let text := entry_text product in
  let st1 :=
    match id_to_price st !! pid with
    | None =>
        {| id_to_price :=
             <[pid := fetch_price (server (requested st) pid)]> (id_to_price st);
           enriched := enriched st;
           requested := requested st ++ [pid] |}
    | Some _ => st
    end in
  let price := id_to_price st1 !!! pid in
  let '(code, name) := _parse_code_and_name text in
  {| id_to_price := id_to_price st1;
     enriched := enriched st1 ++
       [{| product_name := name; product_code := code; marketing_price := price |}];
     requested := requested st1 |}.

Definition enrich_loop (server : price_server) (catalog : list entry)
  : enrich_state :=
  fold_left (enrich_step server) catalog
    {| id_to_price := ∅; enriched := []; requested := [] |}.

Definition enrich_with_prices (server : price_server) (catalog : list entry)
  : list enriched_product :=
  enriched (enrich_loop server catalog).

Section Persistence.
Context (json_dump : list enriched_product -> string).
Context {date : Type} (strftime_Ymd : date -> string).

Definition save_json (products : list enriched_product) (fs : filesystem)
  : option (filesystem * list enriched_product) :=
  let products_sorted := sorted name_code tuple_lt products in
  fs' ← open_write "products.json" (json_dump products_sorted) fs;
  Some (fs', products_sorted).

Definition write_last_updated_file (date_obj : date) (fs : filesystem)
  : option filesystem :=
  let iso_date := strftime_Ymd date_obj in
  open_write "last_updated.txt" iso_date fs.

Definition main (environ : gmap string string) (login_post : form -> reply unit)
    (search_post : string -> reply (option payload)) (server : price_server)
    (today : date) (fs : filesystem) : Z * filesystem :=
  match login environ login_post with
  | (SysExit code, _) => (code, fs)
  | (Session, _) =>
      let catalog := collect_full_catalog search_post in
      let products := enrich_with_prices server catalog in
      match save_json products fs with
      | None => (EXIT_UNCAUGHT, fs)
      | Some (fs1, _) =>
          match write_last_updated_file today fs1 with
          | None => (EXIT_UNCAUGHT, fs1)
          | Some fs2 => (EXIT_OK, fs2)
          end
      end
  end.

End Persistence.

End Sequential.

(** ** [src/src/product_scraper.py]: the thread-pool script *)

Module Pooled.

(** What a [ThreadPoolExecutor] adds to the program is a choice of orders:
    the order in which the submitted requests reach the server and the order
    in which [as_completed] hands the futures back.  Both are rearrangements
    of the submission order ([fair]). *)
Record executor : Type :=
  { arrival : list string -> list string;
    completion : list string -> list string }.

Definition fair (ex : executor) : Prop :=
  forall submitted,
    arrival ex submitted ≡ₚ submitted /\ completion ex submitted ≡ₚ submitted.

(** The executor that serves and completes in submission order. *)
Definition in_order : executor := {| arrival := id; completion := id |}.

(** The executor that completes the last submitted future first. *)
Definition last_first : executor := {| arrival := id; completion := reverse |}.

(** The blocking wrappers of the pool have the bodies of
    [fetch_products_for_term] and [fetch_price] of the original script. *)
Abbreviation _fetch_products_for_term_blocking := fetch_products_for_term.
Abbreviation _fetch_price_blocking := fetch_price.

(** One future per term; its result is what the blocking wrapper returns
    for the term.  The merge runs in the main thread, one completed future
    after the other. *)
Definition collect_full_catalog (ex : executor)
    (post : string -> reply (option payload)) : list entry :=
  let catalog :=
    fold_left
      (fun catalog term =>
         merge_items catalog (_fetch_products_for_term_blocking post term))
      (completion ex terms) [] in
  PyDict.values catalog.

(** "Build unique list of ids to fetch". *)
Definition unique_step (acc : gmap string string * list string)
    (product : entry) : gmap string string * list string :=
  let pid := entry_id product in
  match acc.1 !! pid with
  | None => (<[pid := ""]> acc.1, acc.2 ++ [pid])
  | Some _ => acc
  end.

Definition build_unique_ids (catalog : list entry)
  : gmap string string * list string :=
  fold_left unique_step catalog (∅, []).

(** The futures of the price pool: the requests are served in the order
    [arrived]; the result of each future is kept under its id, next to the
    ids requested so far. *)
Definition serve (server : price_server)
    (acc : gmap string string * list string) (pid : string)
  : gmap string string * list string :=
  (<[pid := _fetch_price_blocking (server acc.2 pid)]> acc.1, acc.2 ++ [pid]).

Definition run_pool (server : price_server) (arrived : list string)
  : gmap string string * list string :=
  fold_left (serve server) arrived (∅, []).

(** [for future in as_completed(future_to_pid)] *)
Definition store_result (results : gmap string string)
    (id_to_price : gmap string string) (pid : string) : gmap string string :=
  <[pid := PyStr.or_else (results !!! pid) ""]> id_to_price.

(** "Build enriched list in original order". *)
Definition enrich_entry (id_to_price : gmap string string) (product : entry)
  : enriched_product :=
  let pid := entry_id product in
  let text := entry_text product in
  let price := default "" (id_to_price !! pid) in
  let '(code, name) := _parse_code_and_name text in
  {| product_name := name; product_code := code; marketing_price := price |}.

(** The first two phases of [enrich_with_prices]: the final [id_to_price]
    and the ids sent to the price endpoint, oldest first. *)
Definition fetch_all (ex : executor) (server : price_server)
    (catalog : list entry) : gmap string string * list string :=
  let '(id_to_price0, unique_ids) := build_unique_ids catalog in
  let '(results, requested) := run_pool server (arrival ex unique_ids) in
  (fold_left (store_result results) (completion ex unique_ids) id_to_price0,
   requested).

Definition enrich_with_prices_log (ex : executor) (server : price_server)
    (catalog : list entry) : list enriched_product * list string :=
  let '(id_to_price, requested) := fetch_all ex server catalog in
  (map (enrich_entry id_to_price) catalog, requested).

Definition enrich_with_prices (ex : executor) (server : price_server)
    (catalog : list entry) : list enriched_product :=
  (enrich_with_prices_log ex server catalog).1.

Section Persistence.
Context (json_dump : list enriched_product -> string).
Context {date : Type} (strftime_Ymd : date -> string).

Definition save_json (products : list enriched_product) (fs : filesystem)
  : option (filesystem * list enriched_product) :=
  let products_sorted := sorted name_code tuple_lt products in
  fs1 ← makedirs "data" fs;
  fs2 ← open_write "data/products.json" (json_dump products_sorted) fs1;
  Some (fs2, products_sorted).

Definition write_last_updated_file (date_obj : date) (fs : filesystem)
  : option filesystem :=
  let iso_date := strftime_Ymd date_obj in
  fs1 ← makedirs "data" fs;
  open_write "data/last_updated.txt" iso_date fs1.

Definition main (ex : executor) (environ : gmap string string)
    (login_post : form -> reply unit)
    (search_post : string -> reply (option payload)) (server : price_server)
    (today : date) (fs : filesystem) : Z * filesystem :=
  match login environ login_post with
  | (SysExit code, _) => (code, fs)
  | (Session, _) =>
      let catalog := collect_full_catalog ex search_post in
      let products := enrich_with_prices ex server catalog in
      match save_json products fs with
      | None => (EXIT_UNCAUGHT, fs)
      | Some (fs1, _) =>
          match write_last_updated_file today fs1 with
          | None => (EXIT_UNCAUGHT, fs1)
          | Some fs2 => (EXIT_OK, fs2)
          end
      end
  end.

End Persistence.

End Pooled.

(** ** Vocabulary of the statements *)

(** The empty white-space test on whole strings. *)
Definition all_space (s : string) : Prop :=
  Forall (fun c => PyStr.isspace c = true) (list_ascii_of_string s).

(** First and last character of a string, when there is one. *)
Definition first_char (s : string) : option ascii :=
  match s with String c _ => Some c | EmptyString => None end.

Fixpoint last_char (s : string) : option ascii :=
  match s with
  | String c EmptyString => Some c
  | String _ s' => last_char s'
  | EmptyString => None
  end.

Definition not_space (o : option ascii) : Prop :=
  match o with Some c => PyStr.isspace c = false | None => True end.

(** The non-empty trimmed segments of a text, in the words of the
    description: split, trim each segment, drop the empty ones. *)
Definition segments (text : string) : list string :=
  List.filter PyStr.truthy (map PyStr.strip (PyStr.split "/" text)).

(** The characters of the search alphabet, by code point: a digit or a
    lower-case letter. *)
Definition is_term_char (c : ascii) : bool :=
  let n := N_of_ascii c in
  ((48 <=? n) && (n <=? 57) || (97 <=? n) && (n <=? 122))%N.

(** The [i]-th character of "0-9 then a-z". *)
Definition term_char (i : nat) : ascii :=
  ascii_of_nat (if (i <? 10)%nat then 48 + i else 87 + i).

Definition two_chars (a b : ascii) : string := String a (String b EmptyString).

(** The two requests of the login handshake. *)
Definition first_request (user : string) : form := [("user", user)].

Definition second_request (user pass : string) : form :=
  [("user", user); ("password", pass)].

(** A request fails when it raises or when [raise_for_status] rejects the
    status of its response. *)
Definition request_failed (r : reply unit) : Prop :=
  match r with
  | Raises => True
  | Response status_code _ => raise_for_status status_code = true
  end.

(** Both credentials are set and not empty. *)
Definition credentials (environ : gmap string string) (user pass : string)
  : Prop :=
  environ !! "ISLANDSUN_USERNAME" = Some user /\ user <> ""
  /\ environ !! "ISLANDSUN_PASSWORD" = Some pass /\ pass <> "".

(** The composite key of a catalog entry: trimmed id, trimmed text. *)
Definition entry_key (e : entry) : key :=
  (PyStr.strip (entry_id e), PyStr.strip (entry_text e)).

(** The entry stored under a key: [{"id": key[0], "text": key[1]}]. *)
Definition entry_of (k : key) : entry :=
  {| entry_id := k.1; entry_text := k.2 |}.

(** A key the catalog accepts: neither component is empty. *)
Definition usable (k : key) : Prop := k.1 <> "" /\ k.2 <> "".

#[global] Instance usable_dec (k : key) : Decision (usable k).
Proof. unfold usable. apply _. Defined.

(** Every key once, at the place of its first occurrence. *)
Fixpoint first_occurrences (l : list key) : list key :=
  match l with
  | [] => []
  | k :: l' => k :: filter (fun k' => k' <> k) (first_occurrences l')
  end.

(** The items the loop sees when the terms are handled in [order]. *)
Definition seen (post : string -> reply (option payload)) (order : list string)
  : list item :=
  flat_map (fetch_products_for_term post) order.

(** What the catalog is to the items seen: no composite key twice, no empty
    trimmed id or text, and the keys are the usable keys of the items, each
    at the place where it was first seen. *)
Definition is_catalog_of (items : list item) (catalog : list entry) : Prop :=
  NoDup (map entry_key catalog)
  /\ Forall (fun e => PyStr.strip (entry_id e) <> ""
                      /\ PyStr.strip (entry_text e) <> "") catalog
  /\ map entry_key catalog
     = first_occurrences (filter usable (map key_of items)).

(** The dictionary that holds the keys [ks], in this order. *)
Definition to_dict (ks : list key) : PyDict.t := map (fun k => (k, entry_of k)) ks.

(** Every file that [fs'] holds and [fs] does not hold with the same
    content lies directly in the directory [d]. *)
Definition written_in (fs fs' : filesystem) (d : list string) : Prop :=
  forall p content,
    fs' !! p = Some (File content) -> fs !! p <> Some (File content) ->
    parent p = d.

(** The path names a regular file. *)
Definition is_file (fs : filesystem) (p : list string) : bool :=
  match fs !! p with Some (File _) => true | _ => false end.

(** The record of a catalog entry, given the price cache. *)
Definition priced (cache : gmap string string) (e : entry) : enriched_product :=
  {| product_name := (_parse_code_and_name (entry_text e)).2;
     product_code := (_parse_code_and_name (entry_text e)).1;
     marketing_price := default "" (cache !! entry_id e) |}.

(** What enriching [catalog] against [server] amounts to: the ids were
    requested in the order [requested], none twice; the cache holds for
    each id the outcome of its one request, made after the requests before
    it; every entry got the cached price of its id. *)
Definition enrichment_of (server : price_server) (catalog : list entry)
    (cache : gmap string string) (enriched : list enriched_product)
    (requested : list string) : Prop :=
  NoDup requested
  /\ (forall pid, pid ∈ requested <-> pid ∈ map entry_id catalog)
  /\ (forall h pid t, requested = h ++ pid :: t ->
        cache !! pid = Some (fetch_price (server h pid)))
  /\ enriched = map (priced cache) catalog.

(** A price fetch fails when the request raises or the status is not 200. *)
Definition fetch_failed (r : reply string) : Prop :=
  match r with
  | Raises => True
  | Response status_code _ => status_code <> 200%Z
  end.

(** The record of an entry when the price endpoint answers each id the
    same way whenever it is asked. *)
Definition priced_by (prices : string -> reply string) (e : entry)
  : enriched_product :=
  {| product_name := (_parse_code_and_name (entry_text e)).2;
     product_code := (_parse_code_and_name (entry_text e)).1;
     marketing_price := fetch_price (prices (entry_id e)) |}.

(** The price endpoint was asked once for every id of the catalog and for
    nothing else, and entries of one id carry one price. *)
Definition one_fetch_per_id (catalog : list entry)
    (enriched : list enriched_product) (requested : list string) : Prop :=
  NoDup requested
  /\ (forall pid, pid ∈ requested <-> pid ∈ map entry_id catalog)
  /\ (forall i j e1 e2 r1 r2,
        catalog !! i = Some e1 -> catalog !! j = Some e2 ->
        enriched !! i = Some r1 -> enriched !! j = Some r2 ->
        entry_id e1 = entry_id e2 ->
        marketing_price r1 = marketing_price r2).

(** Every entry has its record, with the code and name parsed from its
    text; when the request for its id failed, the cache holds the empty
    string for the id and the record carries the empty price. *)
Definition failure_tolerant (server : price_server) (catalog : list entry)
    (cache : gmap string string) (enriched : list enriched_product)
    (requested : list string) : Prop :=
  length enriched = length catalog
  /\ (forall i e, catalog !! i = Some e ->
        exists r, enriched !! i = Some r
          /\ (product_code r, product_name r) = _parse_code_and_name (entry_text e)
          /\ ((forall h t, requested = h ++ entry_id e :: t ->
                           fetch_failed (server h (entry_id e))) ->
              cache !! entry_id e = Some "" /\ marketing_price r = "")).

(** Two ids with one text: a tie for the sort. *)
Definition tie_item (id text : string) : item :=
  {[ "id" := VStr id; "text" := VStr text ]}.

(** The search endpoint answers "00" with id 1 and "01" with id 2, both
    with the text "A / X". *)
Definition tie_search (term : string) : reply (option payload) :=
  if String.eqb term "00" then Response 200 (Some (JList [tie_item "1" "A / X"]))
  else if String.eqb term "01" then Response 200 (Some (JList [tie_item "2" "A / X"]))
  else Raises.

(** Id 1 costs 10, every other id 20. *)
Definition tie_prices (pid : string) : reply string :=
  if String.eqb pid "1" then Response 200 "10" else Response 200 "20".

(** A catalog with two entries of one id, and a price endpoint that answers
    with the number of requests it has seen, and fails for id "7". *)
Definition shared_id_catalog : list entry :=
  [ {| entry_id := "42"; entry_text := "A / X" |};
    {| entry_id := "7"; entry_text := "B / Y" |};
    {| entry_id := "42"; entry_text := "C / Z" |} ].

Definition counting_server (h : list string) (pid : string) : reply string :=
  if String.eqb pid "7" then Raises
  else Response 200 (String (ascii_of_nat (48 + length h)) "").

(** An enriched record, by its three fields. *)
Definition product_of (name code price : string) : enriched_product :=
  {| product_name := name; product_code := code; marketing_price := price |}.

(** Lexicographic order on pairs of strings, each compared as a string. *)
Definition lex_le (a b : string * string) : Prop :=
  (a.1 <> b.1 /\ String.le a.1 b.1) \/ (a.1 = b.1 /\ String.le a.2 b.2).

(** The order [a <= b] that a test [lt] for [<] induces: not [b < a]. *)
Definition le_of {K : Type} (lt : K -> K -> bool) (a b : K) : Prop :=
  lt b a = false.

(** The order of the elements by their sort keys. *)
Definition key_le {A K : Type} (sort_key : A -> K) (lt : K -> K -> bool)
    (x y : A) : Prop :=
  le_of lt (sort_key x) (sort_key y).

(** Both "00" and "01" return the same product. *)
Definition dup_search (term : string) : reply (option payload) :=
  if String.eqb term "00" || String.eqb term "01"
  then Response 200
         (Some (JList [ {[ "id" := VStr "7"; "text" := VStr "ABC / Widget" ]} ]))
  else Response 200 (Some (JList [])).

(** A string without the separator of the product texts. *)
Definition slash_free (s : string) : Prop :=
  "/"%char ∉ list_ascii_of_string s.

(** A string that [strip] leaves as it is. *)
Definition trimmed (s : string) : Prop := PyStr.strip s = s.

(** What every segment of a product text is: trimmed, not empty, without
    slash. *)
Definition segment_like (s : string) : Prop :=
  trimmed s /\ s <> "" /\ slash_free s.

(** The catalog of the loop over [order] after its first [n] rounds: what
    the progress line counts as [Unique]. *)
Definition catalog_after (post : string -> reply (option payload))
    (order : list string) (n : nat) : list entry :=
  PyDict.values
    (fold_left
       (fun catalog term => merge_items catalog (fetch_products_for_term post term))
       (take n order) []).

(** A search request that yields no items: it raises, or its status is an
    error, or its body is not JSON, or the JSON is not a list. *)
Definition search_failed (r : reply (option payload)) : Prop :=
  match r with
  | Raises => True
  | Response status_code body =>
      raise_for_status status_code = true
      \/ body = None \/ body = Some JNotList
  end.

(** Every element once, at the place of its first occurrence. *)
Fixpoint first_seen {A : Type} `{EqDecision A} (l : list A) : list A :=
  match l with
  | [] => []
  | x :: l' => x :: filter (fun y => y <> x) (first_seen l')
  end.

(** What every saved record satisfies. *)
Definition well_formed_record (r : enriched_product) : Prop :=
  product_name r <> "" /\ trimmed (product_name r)
  /\ trimmed (product_code r) /\ slash_free (product_code r)
  /\ trimmed (marketing_price r).

(** The records [main] saves, for each script. *)
Definition sequential_products (search : string -> reply (option payload))
    (server : price_server) : list enriched_product :=
  sorted name_code tuple_lt
    (Sequential.enrich_with_prices server
       (Sequential.collect_full_catalog search)).

Definition pooled_products (ex : Pooled.executor)
    (search : string -> reply (option payload))
    (server : price_server) : list enriched_product :=
  sorted name_code tuple_lt
    (Pooled.enrich_with_prices ex server
       (Pooled.collect_full_catalog ex search)).

(** * Python's string methods: what the model guarantees *)

Lemma truthy_true (s : string) : PyStr.truthy s = true <-> s <> "".
Proof. destruct s; simpl; split; congruence. Qed.

Lemma truthy_false (s : string) : PyStr.truthy s = false <-> s = "".
Proof. destruct s; simpl; split; congruence. Qed.

Lemma split_nonempty (sep : ascii) (s : string) : PyStr.split sep s <> [].
Proof.
  induction s as [|c s IH]; simpl; [discriminate|].
  destruct (Ascii.eqb c sep); [discriminate|].
  destruct (PyStr.split sep s); [contradiction|discriminate].
Qed.

(** Joining the pieces with the separator gives the string back. *)
Lemma join_split (sep : ascii) (s : string) :
  PyStr.join (String sep "") (PyStr.split sep s) = s.
Proof.
  induction s as [|c s IH]; simpl; [reflexivity|].
  destruct (Ascii.eqb_spec c sep) as [->|Hne].
  - pose proof (split_nonempty sep s) as Hs.
    destruct (PyStr.split sep s) as [|p ps]; [contradiction|].
    cbn [PyStr.join]. cbn [PyStr.join] in IH. rewrite IH. reflexivity.
  - pose proof (split_nonempty sep s) as Hs.
    destruct (PyStr.split sep s) as [|p ps]; [contradiction|].
    destruct ps as [|q qs]; cbn [PyStr.join] in *; rewrite <- IH; reflexivity.
Qed.

(** No piece contains the separator. *)
Lemma split_no_sep (sep : ascii) (s : string) :
  Forall (fun p => sep ∉ list_ascii_of_string p) (PyStr.split sep s).
Proof.
  induction s as [|c s IH]; simpl.
  - repeat constructor. simpl. apply not_elem_of_nil.
  - destruct (Ascii.eqb_spec c sep) as [->|Hne].
    + constructor; [simpl; apply not_elem_of_nil | exact IH].
    + destruct (PyStr.split sep s) as [|p ps].
      * repeat constructor. simpl. intros H%list_elem_of_singleton. congruence.
      * inversion IH as [|? ? Hp Hps]; subst. constructor; [|exact Hps].
        simpl. intros [H|H]%elem_of_cons; [congruence | contradiction].
Qed.

Lemma rstrip_idem (s : string) : PyStr.rstrip (PyStr.rstrip s) = PyStr.rstrip s.
Proof.
  induction s as [|c s IH]; simpl; [reflexivity|].
  destruct (PyStr.rstrip s) as [|d r] eqn:E.
  - destruct (PyStr.isspace c) eqn:Hc; simpl; [reflexivity|]. now rewrite Hc.
  - change (PyStr.rstrip (String c (String d r))) with
      (match PyStr.rstrip (String d r) with
       | "" => if PyStr.isspace c then "" else String c ""
       | r0 => String c r0
       end).
    now rewrite IH.
Qed.

Lemma rstrip_first (c : ascii) (s : string) :
  PyStr.isspace c = false -> exists r, PyStr.rstrip (String c s) = String c r.
Proof.
  intros Hc. simpl. destruct (PyStr.rstrip s); rewrite ?Hc; eauto.
Qed.

Lemma lstrip_first (s : string) : not_space (first_char (PyStr.lstrip s)).
Proof.
  induction s as [|c s IH]; simpl; [exact I|].
  destruct (PyStr.isspace c) eqn:Hc; [exact IH | exact Hc].
Qed.

Lemma lstrip_id (s : string) : not_space (first_char s) -> PyStr.lstrip s = s.
Proof. destruct s as [|c s]; simpl; [reflexivity | now intros ->]. Qed.

Lemma strip_first (s : string) : not_space (first_char (PyStr.strip s)).
Proof.
  unfold PyStr.strip. pose proof (lstrip_first s) as H.
  destruct (PyStr.lstrip s) as [|c t]; [exact I|]. simpl in H.
  destruct (rstrip_first c t H) as [r ->]. exact H.
Qed.

Lemma rstrip_last (s : string) : not_space (last_char (PyStr.rstrip s)).
Proof.
  induction s as [|c s IH]; simpl; [exact I|].
  destruct (PyStr.rstrip s) as [|d r].
  - destruct (PyStr.isspace c) eqn:Hc; simpl; [exact I | exact Hc].
  - exact IH.
Qed.

Lemma strip_last (s : string) : not_space (last_char (PyStr.strip s)).
Proof. apply rstrip_last. Qed.

(** Trimming twice is trimming once. *)
Lemma strip_idem (s : string) : PyStr.strip (PyStr.strip s) = PyStr.strip s.
Proof.
  unfold PyStr.strip at 1. rewrite (lstrip_id _ (strip_first s)).
  unfold PyStr.strip. apply rstrip_idem.
Qed.

Lemma app_String (c : ascii) (a b : string) :
  String c a +:+ b = String c (a +:+ b).
Proof. reflexivity. Qed.

Lemma lstrip_decompose (s : string) :
  exists l, s = l +:+ PyStr.lstrip s /\ all_space l.
Proof.
  induction s as [|c s (l & Hl & Hsp)]; simpl.
  - exists "". split; [reflexivity | constructor].
  - destruct (PyStr.isspace c) eqn:Hc.
    + exists (String c l). split; [now rewrite app_String, <- Hl | now constructor].
    + exists "". split; [reflexivity | constructor].
Qed.

Lemma rstrip_decompose (s : string) :
  exists r, s = PyStr.rstrip s +:+ r /\ all_space r.
Proof.
  induction s as [|c s (r & Hr & Hsp)]; simpl.
  - exists "". split; [reflexivity | constructor].
  - destruct (PyStr.rstrip s) as [|d t] eqn:E.
    + change ("" +:+ r) with r in Hr. subst r.
      destruct (PyStr.isspace c) eqn:Hc.
      * exists (String c s). split; [reflexivity | now constructor].
      * exists s. split; [reflexivity | exact Hsp].
    + exists r. split; [now rewrite app_String, <- Hr | exact Hsp].
Qed.

(** [strip] removes white space only, and all of it at both ends. *)
Lemma strip_decompose (s : string) :
  exists l r, s = l +:+ PyStr.strip s +:+ r /\ all_space l /\ all_space r
    /\ not_space (first_char (PyStr.strip s))
    /\ not_space (last_char (PyStr.strip s)).
Proof.
  destruct (lstrip_decompose s) as (l & Hl & Hls).
  destruct (rstrip_decompose (PyStr.lstrip s)) as (r & Hr & Hrs).
  exists l, r. unfold PyStr.strip at 1. rewrite <- Hr, <- Hl.
  auto using strip_first, strip_last.
Qed.

(** * [_parse_code_and_name] *)

Lemma parse_parts (l : list string) :
  map PyStr.strip (List.filter (fun p => PyStr.truthy (PyStr.strip p)) l)
  = List.filter PyStr.truthy (map PyStr.strip l).
Proof.
  induction l as [|p l IH]; simpl; [reflexivity|].
  destruct (PyStr.truthy (PyStr.strip p)); simpl; now rewrite IH.
Qed.

Lemma parse_unfold (text : string) :
  _parse_code_and_name text =
  match segments text with
  | [] => ("", PyStr.strip text)
  | [only] => (only, PyStr.strip text)
  | code :: rest => (code, PyStr.join " / " rest)
  end.
Proof.
  unfold _parse_code_and_name, segments. rewrite parse_parts.
  destruct (List.filter _ _) as [|a [|b l]]; reflexivity.
Qed.

(** C1, as the code has it: the parser returns what the description of the
    three cases says, on the non-empty trimmed segments of the text.  With
    one segment the code is that segment, also when the text has no slash:
    "SoloName" has code "SoloName". *)
Theorem parse_code_and_name_cases (text : string) :
  _parse_code_and_name text =
    match segments text with
    | [] => ("", PyStr.strip text)
    | [only] => (only, PyStr.strip text)
    | code :: rest => (code, PyStr.join " / " rest)
    end
  /\ _parse_code_and_name "7 / Blue Widget" = ("7", "Blue Widget")
  /\ _parse_code_and_name "SoloName" = ("SoloName", "SoloName")
  /\ _parse_code_and_name " A / B / C " = ("A", "B / C").
Proof.
  split; [apply parse_unfold|]. repeat split; reflexivity.
Qed.

(** C1 as stated fails on its own example: the code of "SoloName" is not
    the empty string. *)
Lemma parse_SoloName_code_not_empty :
  _parse_code_and_name "SoloName" <> ("", "SoloName").
Proof. vm_compute. discriminate. Qed.

(** * The search terms *)

Lemma elem_of_product2 {A : Type} (xs : list A) (a b : A) :
  (a, b) ∈ product2 xs <-> a ∈ xs /\ b ∈ xs.
Proof.
  unfold product2. rewrite !list_elem_of_In, in_flat_map. split.
  - intros (x & Hx & Hab). apply in_map_iff in Hab as (y & [= -> ->] & Hy).
    auto.
  - intros [Ha Hb]. exists a. split; [exact Ha|].
    apply in_map_iff. now exists b.
Qed.

Lemma is_term_char_alphabet (c : ascii) :
  is_term_char c = true -> c ∈ list_ascii_of_string alphabet.
Proof.
  destruct c as [[] [] [] [] [] [] [] []]; vm_compute; intros H;
    try discriminate H; clear H;
    repeat first [ apply list_elem_of_here | apply list_elem_of_further ].
Qed.

Lemma terms_shape :
  Forall (fun s => exists a b,
            s = two_chars a b /\ is_term_char a = true /\ is_term_char b = true)
         terms.
Proof.
  assert (H : forallb (fun s =>
            match s with
            | String a (String b EmptyString) => is_term_char a && is_term_char b
            | _ => false
            end) terms = true) by (vm_compute; reflexivity).
  apply List.Forall_forall. intros s Hs.
  apply (proj1 (forallb_forall _ _) H) in Hs.
  destruct s as [|a [|b [|? ?]]]; try discriminate Hs.
  apply andb_prop in Hs as [Ha Hb]. now exists a, b.
Qed.

(** C3: the terms are the two-character strings over 0-9, a-z, each once,
    1296 of them, and the [n]-th term is made of the characters number
    [n / 36] and [n mod 36] of the alphabet: the first one varies slowest. *)
Theorem terms_enumeration :
  length terms = 1296%nat
  /\ NoDup terms
  /\ (forall s, s ∈ terms <->
        exists a b, s = two_chars a b
                    /\ is_term_char a = true /\ is_term_char b = true)
  /\ terms = map (fun n => two_chars (term_char (n / 36)) (term_char (n mod 36)))
                 (seq 0 1296).
Proof.
  split; [vm_compute; reflexivity|].
  split; [apply (bool_decide_unpack _); vm_compute; reflexivity|].
  split; [|vm_compute; reflexivity].
  intros s. split.
  - intros Hs%list_elem_of_In.
    exact (proj1 (List.Forall_forall _ _) terms_shape s Hs).
  - intros (a & b & -> & Ha & Hb). unfold terms.
    apply (list_elem_of_fmap_2 (fun p => String p.1 (String p.2 EmptyString)) _ (a, b)).
    apply elem_of_product2; auto using is_term_char_alphabet.
Qed.

(** * [login] *)

Lemma unset_or_empty_true (v : option string) :
  unset_or_empty v = true <-> v = None \/ v = Some "".
Proof.
  destruct v as [[|c s]|]; simpl; split; intros H; auto; try discriminate H;
    destruct H as [H|H]; discriminate H.
Qed.

Lemma login_with_credentials environ post user pass :
  credentials environ user pass ->
  login environ post =
    match post (first_request user) with
    | Raises => (SysExit 3, [first_request user])
    | Response _ _ =>
        match post (second_request user pass) with
        | Raises => (SysExit 3, [first_request user; second_request user pass])
        | Response status_code _ =>
            if raise_for_status status_code
            then (SysExit 3, [first_request user; second_request user pass])
            else (Session, [first_request user; second_request user pass])
        end
    end.
Proof.
  intros (Hu & Hu' & Hp & Hp'). unfold login. rewrite Hu, Hp.
  destruct user; [contradiction|]. destruct pass; [contradiction|]. reflexivity.
Qed.

Lemma login_result_cases environ post :
  (login environ post).1 = Session
  \/ (login environ post).1 = SysExit 2
  \/ (login environ post).1 = SysExit 3.
Proof.
  unfold login. destruct (_ || _); [auto|].
  destruct (post _); [auto|]. destruct (post _); [auto|].
  destruct (raise_for_status _); auto.
Qed.

(** C6, as the code has it: exit 2 without any request when a credential
    is unset or empty; with both credentials, exit 3 when the first request
    raises or the second request fails, a session after two requests
    otherwise; and both versions of [main] end with the status of
    [sys.exit], or with 0 only after a session was returned. *)
Theorem login_exit_codes (environ : gmap string string)
    (post : form -> reply unit) :
  ((environ !! "ISLANDSUN_USERNAME" = None
    \/ environ !! "ISLANDSUN_USERNAME" = Some ""
    \/ environ !! "ISLANDSUN_PASSWORD" = None
    \/ environ !! "ISLANDSUN_PASSWORD" = Some "") ->
   login environ post = (SysExit 2, []))
  /\ (forall user pass, credentials environ user pass ->
        ((post (first_request user) = Raises
          \/ request_failed (post (second_request user pass))) ->
         (login environ post).1 = SysExit 3)
        /\ (post (first_request user) <> Raises ->
            ~ request_failed (post (second_request user pass)) ->
            login environ post
            = (Session, [first_request user; second_request user pass])))
  /\ (forall (dump : list enriched_product -> string) (date : Type)
             (fmt : date -> string) search server (today : date) fs,
        (forall code, (login environ post).1 = SysExit code ->
           Sequential.main dump fmt environ post search server today fs
           = (code, fs))
        /\ ((Sequential.main dump fmt environ post search server today fs).1
              = EXIT_OK -> (login environ post).1 = Session)
        /\ (forall ex code, (login environ post).1 = SysExit code ->
             Pooled.main dump fmt ex environ post search server today fs
             = (code, fs))
        /\ (forall ex,
             (Pooled.main dump fmt ex environ post search server today fs).1
             = EXIT_OK -> (login environ post).1 = Session)).
Proof.
  split; [|split].
  - intros H. unfold login.
    assert (unset_or_empty (environ !! "ISLANDSUN_USERNAME")
            || unset_or_empty (environ !! "ISLANDSUN_PASSWORD") = true) as ->;
      [|reflexivity].
    apply orb_true_iff. rewrite !unset_or_empty_true. tauto.
  - intros user pass Hc. rewrite (login_with_credentials _ post _ _ Hc).
    split.
    + intros [H|H].
      * now rewrite H.
      * destruct (post (first_request user)); [reflexivity|].
        destruct (post (second_request user pass)); [reflexivity|].
        simpl in H. now rewrite H.
    + intros H1 H2. destruct (post (first_request user)); [contradiction|].
      destruct (post (second_request user pass)) as [|st b]; simpl in H2.
      * contradiction.
      * destruct (raise_for_status st); [contradiction | reflexivity].
  - intros dump date fmt search server today fs.
    pose proof (login_result_cases environ post) as Hcases.
    unfold Sequential.main, Pooled.main.
    destruct (login environ post) as [[|c] reqs]; simpl in *.
    + repeat split; intros; try discriminate; reflexivity.
    + repeat split; try (intros; congruence); intros;
        destruct Hcases as [H'|[H'|H']]; simplify_eq; discriminate.
Qed.

(** C6 as stated fails: "otherwise it returns a session" does not hold when
    the first request raises, although the second request would not fail. *)
Lemma login_no_session_when_first_request_raises :
  ~ (forall environ post user pass,
       credentials environ user pass ->
       ~ request_failed (post (second_request user pass)) ->
       (login environ post).1 = Session).
Proof.
  intros H.
  specialize (H {[ "ISLANDSUN_USERNAME" := "u"; "ISLANDSUN_PASSWORD" := "p" ]}
                (fun f => if bool_decide (f = first_request "u")
                          then Raises else Response 200 ())
                "u" "p").
  vm_compute in H. discriminate H.
  - repeat split; discriminate.
  - intros [=].
Qed.

Lemma login_exit_codes_witness :
  login {[ "ISLANDSUN_USERNAME" := "u" ]} (fun _ => Response 200 ())
  = (SysExit 2, []).
Proof.
  apply (proj1 (login_exit_codes _ _)). right. right. left. reflexivity.
Defined.

(** C10: when the first request raises, [login] exits with status 3 and the
    first request is the only one it sent. *)
Theorem login_first_request_raises (environ : gmap string string)
    (post : form -> reply unit) (user pass : string) :
  credentials environ user pass ->
  post (first_request user) = Raises ->
  login environ post = (SysExit 3, [first_request user]).
Proof.
  intros Hc H. rewrite (login_with_credentials _ post _ _ Hc). now rewrite H.
Qed.

Lemma login_first_request_raises_witness :
  login {[ "ISLANDSUN_USERNAME" := "u"; "ISLANDSUN_PASSWORD" := "p" ]}
        (fun f => if bool_decide (f = first_request "u")
                  then Raises else Response 200 ())
  = (SysExit 3, [first_request "u"]).
Proof.
  apply (login_first_request_raises _ _ "u" "p").
  - repeat split; (reflexivity || discriminate).
  - reflexivity.
Defined.

(** * The catalog *)

Lemma setitem_absent k v (d : PyDict.t) :
  k ∉ map fst d -> PyDict.setitem k v d = d ++ [(k, v)].
Proof.
  induction d as [|[k' v'] d IH]; simpl; [reflexivity|].
  intros H. apply not_elem_of_cons in H as [Hne Hd].
  rewrite bool_decide_false by congruence. now rewrite IH.
Qed.

Lemma keys_to_dict ks : map fst (to_dict ks) = ks.
Proof. unfold to_dict. rewrite map_map. simpl. apply map_id. Qed.

Lemma merge_item_to_dict ks it :
  merge_item (to_dict ks) it =
  to_dict (if decide ((key_of it ∉ ks) /\ usable (key_of it))
           then ks ++ [key_of it] else ks).
Proof.
  unfold merge_item, PyDict.contains. rewrite keys_to_dict.
  generalize (key_of it). intros k. cbv zeta.
  destruct (decide ((k ∉ ks) /\ usable k)) as [[Hk [H1 H2]]|Hn].
  - rewrite bool_decide_false by exact Hk.
    rewrite (proj2 (truthy_true _) H1), (proj2 (truthy_true _) H2).
    cbn [negb andb].
    rewrite setitem_absent by now rewrite keys_to_dict.
    unfold to_dict. now rewrite map_app.
  - destruct (bool_decide (k ∈ ks)) eqn:Hin; [reflexivity|].
    apply bool_decide_eq_false in Hin.
    destruct (PyStr.truthy k.1) eqn:E1; [|reflexivity].
    destruct (PyStr.truthy k.2) eqn:E2; [|reflexivity].
    apply truthy_true in E1, E2. exfalso. apply Hn. now repeat split.
Qed.

Lemma filter_not_in_app (ks : list key) k (l : list key) :
  filter (fun x => x ∉ ks ++ [k]) l
  = filter (fun x => x ∉ ks) (filter (fun k' => k' <> k) l).
Proof.
  rewrite list_filter_filter. apply list_filter_iff. intros x.
  rewrite not_elem_of_app, list_elem_of_singleton. tauto.
Qed.

Lemma merge_items_to_dict items : forall ks,
  merge_items (to_dict ks) items =
  to_dict (ks ++ filter (fun x => x ∉ ks)
                   (first_occurrences (filter usable (map key_of items)))).
Proof.
  unfold merge_items.
  induction items as [|it items IH]; intros ks; simpl.
  - now rewrite app_nil_r.
  - rewrite merge_item_to_dict.
    destruct (decide ((key_of it ∉ ks) /\ usable (key_of it))) as [[Hk Hu]|Hn].
    + rewrite IH. rewrite filter_cons_True by exact Hu. simpl.
      rewrite filter_cons_True by exact Hk.
      rewrite filter_not_in_app, <- app_assoc. reflexivity.
    + rewrite IH. destruct (decide (usable (key_of it))) as [Hu|Hu].
      * rewrite filter_cons_True by exact Hu. simpl.
        assert (Hin : key_of it ∈ ks).
        { destruct (decide (key_of it ∈ ks)); [assumption|]. exfalso; auto. }
        rewrite filter_cons_False by auto.
        rewrite list_filter_filter. do 2 f_equal.
        apply list_filter_iff. intros x. split; [|tauto].
        intros Hx. split; [exact Hx | congruence].
      * now rewrite filter_cons_False by exact Hu.
Qed.

Lemma fold_terms_seen post (order : list string) : forall c,
  fold_left (fun catalog term =>
               merge_items catalog (fetch_products_for_term post term)) order c
  = merge_items c (seen post order).
Proof.
  unfold seen, merge_items.
  induction order as [|t order IH]; intros c; simpl; [reflexivity|].
  now rewrite IH, fold_left_app.
Qed.

Lemma filter_not_in_nil (l : list key) : filter (fun x => x ∉ @nil key) l = l.
Proof.
  induction l as [|x l IH]; [reflexivity|].
  rewrite filter_cons_True by apply not_elem_of_nil. now rewrite IH.
Qed.

Lemma catalog_over post order :
  PyDict.values
    (fold_left (fun catalog term =>
                  merge_items catalog (fetch_products_for_term post term)) order [])
  = map entry_of (first_occurrences (filter usable (map key_of (seen post order)))).
Proof.
  rewrite fold_terms_seen. change (@nil (key * entry)) with (to_dict []).
  rewrite merge_items_to_dict, app_nil_l, filter_not_in_nil.
  unfold PyDict.values, to_dict. rewrite map_map. reflexivity.
Qed.

Lemma elem_of_first_occurrences l k : k ∈ first_occurrences l <-> k ∈ l.
Proof.
  induction l as [|a l IH]; simpl; [reflexivity|].
  rewrite !elem_of_cons, list_elem_of_filter, IH.
  destruct (decide (k = a)); tauto.
Qed.

Lemma NoDup_first_occurrences l : NoDup (first_occurrences l).
Proof.
  induction l as [|a l IH]; simpl; constructor.
  - rewrite list_elem_of_filter. tauto.
  - now apply NoDup_filter.
Qed.

Lemma key_of_trimmed (it : item) : entry_key (entry_of (key_of it)) = key_of it.
Proof. unfold entry_key, entry_of, key_of. simpl. now rewrite !strip_idem. Qed.

Lemma entry_keys_of (items : list item) (ks : list key) :
  ks ⊆ map key_of items -> map entry_key (map entry_of ks) = ks.
Proof.
  intros Hsub. induction ks as [|k ks IH]; [reflexivity|]. simpl.
  assert (Hk : k ∈ map key_of items) by (apply Hsub; left).
  apply list_elem_of_fmap in Hk as (it & -> & _).
  rewrite key_of_trimmed, IH; [reflexivity|].
  intros x Hx. apply Hsub. now right.
Qed.

Lemma catalog_over_is_catalog post order :
  is_catalog_of (seen post order)
    (PyDict.values
       (fold_left (fun catalog term =>
                     merge_items catalog (fetch_products_for_term post term))
                  order [])).
Proof.
  rewrite catalog_over.
  set (items := seen post order).
  set (ks := first_occurrences (filter usable (map key_of items))).
  assert (Hsub : ks ⊆ map key_of items).
  { intros k Hk. apply elem_of_first_occurrences, list_elem_of_filter in Hk. tauto. }
  assert (Hkeys : map entry_key (map entry_of ks) = ks)
    by exact (entry_keys_of items ks Hsub).
  split; [|split].
  - rewrite Hkeys. apply NoDup_first_occurrences.
  - apply Forall_forall. intros e He.
    apply (list_elem_of_fmap_2 entry_key) in He.
    change (entry_key <$> map entry_of ks) with (map entry_key (map entry_of ks)) in He.
    rewrite Hkeys in He.
    apply elem_of_first_occurrences, list_elem_of_filter in He as [Hu _].
    exact Hu.
  - exact Hkeys.
Qed.

Example duplicate_across_terms :
  Sequential.collect_full_catalog dup_search
  = [ {| entry_id := "7"; entry_text := "ABC / Widget" |} ].
Proof. vm_compute. reflexivity. Qed.

(** C2: whatever the search endpoint returns, the catalog of either script
    holds no composite key (trimmed id, trimmed text) twice and no entry
    whose trimmed id or trimmed text is empty; its keys are the usable keys
    seen over all the terms, each at the place of its first occurrence; and
    an item whose key is already present leaves the catalog as it is. *)
Theorem catalog_unique_first_seen (post : string -> reply (option payload)) :
  is_catalog_of (seen post terms) (Sequential.collect_full_catalog post)
  /\ (forall ex,
        is_catalog_of (seen post (Pooled.completion ex terms))
                      (Pooled.collect_full_catalog ex post))
  /\ (forall c it, key_of it ∈ map fst c -> merge_item c it = c).
Proof.
  split; [apply catalog_over_is_catalog|].
  split; [intros ex; apply catalog_over_is_catalog|].
  intros c it Hin. unfold merge_item, PyDict.contains.
  now rewrite bool_decide_true.
Qed.

(** * Sorting *)

Section KeyOrder.
Context {K : Type} (lt : K -> K -> bool).

Hypothesis lt_irrefl : forall a, lt a a = false.
Hypothesis lt_trans : forall a b c, lt a b = true -> lt b c = true -> lt a c = true.
Hypothesis lt_total : forall a b, lt a b = false -> lt b a = false -> a = b.

Lemma lt_asym a b : lt a b = true -> lt b a = false.
Proof.
  intros H. destruct (lt b a) eqn:E; [|reflexivity].
  now rewrite <- (lt_irrefl a), (lt_trans a b a H E).
Qed.

Lemma le_of_trans a b c : (le_of lt) a b -> (le_of lt) b c -> (le_of lt) a c.
Proof.
  unfold le_of. intros Hab Hbc.
  destruct (lt c a) eqn:E; [|reflexivity].
  destruct (lt a b) eqn:E1.
  - now rewrite (lt_trans _ _ _ E E1) in Hbc.
  - rewrite (lt_total _ _ E1 Hab) in E. congruence.
Qed.

Lemma Sorted_le_head a l b :
  Sorted (le_of lt) (a :: l) -> b ∈ a :: l -> (le_of lt) a b.
Proof.
  intros Hs Hb. apply Sorted_StronglySorted in Hs; [|exact le_of_trans].
  apply elem_of_cons in Hb as [->|Hb].
  - apply lt_irrefl.
  - apply StronglySorted_inv in Hs as [_ Hall].
    exact (proj1 (Forall_forall _ _) Hall b Hb).
Qed.

Lemma Sorted_heads_eq a l1 b l2 :
  a :: l1 ≡ₚ b :: l2 -> Sorted (le_of lt) (a :: l1) -> Sorted (le_of lt) (b :: l2) ->
  a = b.
Proof.
  intros Hp H1 H2. apply lt_total.
  - apply (Sorted_le_head b l2 a H2). rewrite <- Hp. left.
  - apply (Sorted_le_head a l1 b H1). rewrite Hp. left.
Qed.

(** Two sorted rearrangements of the same keys are equal. *)
Lemma Sorted_perm_eq l1 : forall l2,
  l1 ≡ₚ l2 -> Sorted (le_of lt) l1 -> Sorted (le_of lt) l2 -> l1 = l2.
Proof.
  induction l1 as [|a l1 IH]; intros l2 Hp H1 H2.
  - now apply Permutation_nil in Hp.
  - destruct l2 as [|b l2]; [now apply Permutation_sym, Permutation_nil in Hp|].
    pose proof (Sorted_heads_eq _ _ _ _ Hp H1 H2) as ->.
    f_equal. apply IH.
    + now apply Permutation_cons_inv in Hp.
    + now apply Sorted_inv in H1.
    + now apply Sorted_inv in H2.
Qed.

End KeyOrder.

Section SortedFacts.
Context {A K : Type} `{EqDecision K} (sort_key : A -> K) (lt : K -> K -> bool).

Hypothesis lt_irrefl : forall a, lt a a = false.
Hypothesis lt_trans : forall a b c, lt a b = true -> lt b c = true -> lt a c = true.
Hypothesis lt_total : forall a b, lt a b = false -> lt b a = false -> a = b.

Lemma Sorted_keys l : Sorted (key_le sort_key lt) l -> Sorted (le_of lt) (map sort_key l).
Proof.
  induction 1 as [|x l Hs IH Hhd]; simpl; constructor; [exact IH|].
  destruct Hhd; simpl; constructor. assumption.
Qed.

Lemma insert_sorted_perm x l : insert_sorted sort_key lt x l ≡ₚ x :: l.
Proof.
  induction l as [|y l IH]; simpl; [reflexivity|].
  destruct (lt _ _); [|reflexivity]. rewrite IH. apply Permutation_swap.
Qed.

Lemma sorted_perm l : sorted sort_key lt l ≡ₚ l.
Proof.
  induction l as [|x l IH]; simpl; [reflexivity|].
  now rewrite insert_sorted_perm, IH.
Qed.

Lemma insert_sorted_Sorted x l :
  Sorted (key_le sort_key lt) l ->
  Sorted (key_le sort_key lt) (insert_sorted sort_key lt x l).
Proof.
  induction 1 as [|y l Hs IH Hhd]; simpl; [repeat constructor|].
  destruct (lt (sort_key y) (sort_key x)) eqn:E.
  - constructor; [exact IH|].
    destruct Hhd as [|z l Hyz]; simpl.
    + constructor. now apply (lt_asym lt lt_irrefl lt_trans).
    + destruct (lt (sort_key z) (sort_key x)); constructor;
        [exact Hyz | now apply (lt_asym lt lt_irrefl lt_trans)].
  - repeat constructor; assumption.
Qed.

Lemma sorted_Sorted l : Sorted (key_le sort_key lt) (sorted sort_key lt l).
Proof.
  induction l as [|x l IH]; simpl; [constructor|].
  now apply insert_sorted_Sorted.
Qed.

Lemma insert_sorted_filter k x l :
  filter (fun y => sort_key y = k) (insert_sorted sort_key lt x l)
  = filter (fun y => sort_key y = k) (x :: l).
Proof.
  induction l as [|y l IH]; simpl; [reflexivity|].
  destruct (lt (sort_key y) (sort_key x)) eqn:E; [|reflexivity].
  rewrite (filter_cons _ y), IH, !(filter_cons _ x), (filter_cons _ y).
  destruct (decide (sort_key y = k)) as [Hy|Hy]; [|reflexivity].
  destruct (decide (sort_key x = k)) as [Hx|Hx]; [|reflexivity].
  rewrite Hy, Hx, lt_irrefl in E. discriminate E.
Qed.

(** Stability: the elements of each key keep their order. *)
Lemma sorted_stable k l :
  filter (fun y => sort_key y = k) (sorted sort_key lt l)
  = filter (fun y => sort_key y = k) l.
Proof.
  induction l as [|x l IH]; simpl; [reflexivity|].
  now rewrite insert_sorted_filter, !(filter_cons _ x), IH.
Qed.

(** A stable sort has one possible result. *)
Lemma stable_sort_unique l1 : forall l2,
  l1 ≡ₚ l2 -> Sorted (key_le sort_key lt) l1 -> Sorted (key_le sort_key lt) l2 ->
  (forall k, filter (fun y => sort_key y = k) l1
             = filter (fun y => sort_key y = k) l2) ->
  l1 = l2.
Proof.
  induction l1 as [|x l1 IH]; intros l2 Hp H1 H2 Hst.
  - now apply Permutation_nil in Hp.
  - destruct l2 as [|y l2]; [now apply Permutation_sym, Permutation_nil in Hp|].
    assert (Hxy : sort_key x = sort_key y).
    { apply (Sorted_heads_eq lt lt_irrefl lt_trans lt_total
               _ (map sort_key l1) _ (map sort_key l2)).
      - exact (Permutation_map sort_key Hp).
      - exact (Sorted_keys _ H1).
      - exact (Sorted_keys _ H2). }
    assert (x = y) as ->.
    { specialize (Hst (sort_key x)).
      rewrite filter_cons_True in Hst by reflexivity.
      rewrite filter_cons_True in Hst by congruence. congruence. }
    f_equal. apply IH.
    + now apply Permutation_cons_inv in Hp.
    + now apply Sorted_inv in H1.
    + now apply Sorted_inv in H2.
    + intros k. specialize (Hst k). rewrite !(filter_cons _ y) in Hst.
      destruct (decide (sort_key y = k)); congruence.
Qed.

Lemma sorted_unique l l' :
  l' ≡ₚ l -> Sorted (key_le sort_key lt) l' ->
  (forall k, filter (fun y => sort_key y = k) l'
             = filter (fun y => sort_key y = k) l) ->
  l' = sorted sort_key lt l.
Proof.
  intros Hp Hs Hst. apply stable_sort_unique.
  - now rewrite sorted_perm.
  - exact Hs.
  - apply sorted_Sorted.
  - intros k. now rewrite sorted_stable.
Qed.

(** Sorting two rearrangements of the same elements gives the same
    sequence of keys. *)
Lemma sorted_keys_perm l1 l2 :
  l1 ≡ₚ l2 ->
  map sort_key (sorted sort_key lt l1) = map sort_key (sorted sort_key lt l2).
Proof.
  intros Hp. apply (Sorted_perm_eq lt lt_irrefl lt_trans lt_total).
  - apply Permutation_map. now rewrite !sorted_perm.
  - apply Sorted_keys, sorted_Sorted.
  - apply Sorted_keys, sorted_Sorted.
Qed.

(** ... and the same list when the key tells the elements apart. *)
Lemma sorted_perm_inj l1 l2 :
  l1 ≡ₚ l2 ->
  (forall x y, x ∈ l1 -> y ∈ l1 -> sort_key x = sort_key y -> x = y) ->
  sorted sort_key lt l1 = sorted sort_key lt l2.
Proof.
  intros Hp Hinj.
  pose proof (sorted_keys_perm l1 l2 Hp) as Hk.
  assert (H1 : forall x, x ∈ sorted sort_key lt l1 -> x ∈ l1)
    by (intros x; now rewrite sorted_perm).
  assert (H2 : forall x, x ∈ sorted sort_key lt l2 -> x ∈ l1)
    by (intros x; now rewrite sorted_perm, Hp).
  revert Hk H1 H2.
  generalize (sorted sort_key lt l1) (sorted sort_key lt l2).
  induction l as [|x l IH]; intros [|y l'] Hk H1 H2; simpl in Hk;
    try discriminate Hk; [reflexivity|].
  injection Hk as Hxy Hk. f_equal.
  - apply Hinj; [apply H1; left | apply H2; left | exact Hxy].
  - apply IH; [exact Hk | |]; intros z Hz; [apply H1 | apply H2]; now right.
Qed.

End SortedFacts.

(** ** The order of the sort keys *)

Lemma compare_refl (s : string) : (s ?= s)%string = Eq.
Proof.
  pose proof (String.compare_antisym s s) as H.
  destruct (s ?= s)%string; simpl in H; congruence.
Qed.

Lemma ltb_le (a b : string) :
  String.ltb a b = true <-> String.le a b /\ a <> b.
Proof.
  unfold String.le, String.leb, String.ltb.
  destruct (a ?= b)%string eqn:E; simpl.
  - apply String.compare_eq_iff in E. subst. split; [discriminate|]. tauto.
  - split; [intros _|reflexivity]. split; [exact I|].
    intros ->. rewrite compare_refl in E. discriminate E.
  - split; [discriminate|]. intros [[] _].
Qed.

Lemma ltb_irrefl (a : string) : String.ltb a a = false.
Proof. unfold String.ltb. now rewrite compare_refl. Qed.

Lemma ltb_trans (a b c : string) :
  String.ltb a b = true -> String.ltb b c = true -> String.ltb a c = true.
Proof.
  rewrite !ltb_le. intros [Hab Hne] [Hbc Hne']. split.
  - now transitivity b.
  - intros ->. apply Hne. now apply (anti_symm String.le).
Qed.

Lemma ltb_total (a b : string) :
  String.ltb a b = false -> String.ltb b a = false -> a = b.
Proof.
  intros H1 H2. destruct (decide (a = b)) as [|Hne]; [assumption|]. exfalso.
  destruct (total String.le a b) as [H|H].
  - assert (String.ltb a b = true) by (apply ltb_le; auto). congruence.
  - assert (String.ltb b a = true) by (apply ltb_le; auto). congruence.
Qed.

Lemma tuple_lt_spec (a b : string * string) :
  tuple_lt a b = true <->
  String.ltb a.1 b.1 = true \/ (a.1 = b.1 /\ String.ltb a.2 b.2 = true).
Proof.
  unfold tuple_lt.
  destruct (String.eqb_spec a.1 b.1) as [E1|N1]; simpl.
  - rewrite E1, ltb_irrefl.
    destruct (String.eqb_spec a.2 b.2) as [E2|N2]; simpl.
    + rewrite E2, ltb_irrefl. split; [discriminate|]. intros [|[_ ]]; discriminate.
    + split; [auto|]. intros [|[_ ?]]; [discriminate | assumption].
  - split; [auto|]. intros [|[? _]]; [assumption | contradiction].
Qed.

Lemma tuple_lt_irrefl a : tuple_lt a a = false.
Proof.
  apply not_true_is_false. rewrite tuple_lt_spec, !ltb_irrefl.
  intros [|[_ ?]]; discriminate.
Qed.

Lemma tuple_lt_trans a b c :
  tuple_lt a b = true -> tuple_lt b c = true -> tuple_lt a c = true.
Proof.
  rewrite !tuple_lt_spec. intros [H1|[E1 H1]] [H2|[E2 H2]].
  - left. eauto using ltb_trans.
  - left. now rewrite <- E2.
  - left. now rewrite E1.
  - right. split; [congruence | eauto using ltb_trans].
Qed.

Lemma tuple_lt_total a b :
  tuple_lt a b = false -> tuple_lt b a = false -> a = b.
Proof.
  intros H1 H2.
  apply not_true_iff_false in H1, H2. rewrite tuple_lt_spec in H1, H2.
  assert (E1 : a.1 = b.1).
  { apply ltb_total; apply not_true_is_false; tauto. }
  assert (E2 : a.2 = b.2).
  { apply ltb_total; apply not_true_is_false; intros H; [apply H1 | apply H2]; auto. }
  destruct a, b; simpl in *; congruence.
Qed.

(** [tuple_lt] is the strict part of the lexicographic order. *)
Lemma tuple_lt_lex_le a b : tuple_lt b a = false <-> lex_le a b.
Proof.
  unfold lex_le. rewrite <- not_true_iff_false, tuple_lt_spec. split.
  - intros H. destruct (decide (a.1 = b.1)) as [E|N].
    + right. split; [exact E|].
      destruct (total String.le a.2 b.2) as [|Hle]; [assumption|].
      destruct (decide (a.2 = b.2)) as [->|N2]; [reflexivity|].
      exfalso. apply H. right. split; [congruence|]. apply ltb_le. auto.
    + left. split; [exact N|].
      destruct (total String.le a.1 b.1) as [|Hle]; [assumption|].
      exfalso. apply H. left. apply ltb_le. auto.
  - intros [[N Hle]|[E Hle]] [H|[E' H]]; apply ltb_le in H as [H Hne].
    + apply N. now apply (anti_symm String.le).
    + congruence.
    + congruence.
    + apply Hne. now apply (anti_symm String.le).
Qed.

(** * Files *)

Lemma makedirs_data (fs : filesystem) :
  makedirs "data" fs =
  match fs !! ["data"] with
  | Some (File _) => None
  | Some Dir => Some fs
  | None => Some (<[["data"] := Dir]> fs)
  end.
Proof.
  unfold makedirs. change (path_of "data") with ["data"]. simpl.
  destruct (fs !! ["data"]) as [[]|]; reflexivity.
Qed.

Lemma makedirs_data_inv (fs fs1 : filesystem) :
  makedirs "data" fs = Some fs1 ->
  fs1 !! ["data"] = Some Dir
  /\ (forall p, p <> ["data"] -> fs1 !! p = fs !! p)
  /\ is_file fs ["data"] = false.
Proof.
  rewrite makedirs_data. unfold is_file.
  destruct (fs !! ["data"]) as [[|c]|] eqn:E; intros [= <-].
  - auto.
  - split; [apply lookup_insert_eq|]. split; [|reflexivity].
    intros p Hp. now rewrite lookup_insert_ne.
Qed.

Lemma open_write_inv (name content : string) (fs fs' : filesystem) :
  open_write name content fs = Some fs' ->
  is_dir fs (parent (path_of name)) = true
  /\ is_dir fs (path_of name) = false
  /\ fs' = <[path_of name := File content]> fs.
Proof.
  unfold open_write.
  destruct (is_dir fs (parent (path_of name))); simpl; [|discriminate].
  destruct (is_dir fs (path_of name)); simpl; [discriminate|].
  now intros [= <-].
Qed.

Lemma pooled_persist_inv (dump : list enriched_product -> string)
    {date : Type} (fmt : date -> string)
    (products : list enriched_product) (today : date)
    (fs fs1 fs2 : filesystem) (l : list enriched_product) :
  Pooled.save_json dump products fs = Some (fs1, l) ->
  Pooled.write_last_updated_file fmt today fs1 = Some fs2 ->
  l = sorted name_code tuple_lt products
  /\ fs2 = <[path_of "data/last_updated.txt" := File (fmt today)]>
            (<[path_of "data/products.json" := File (dump l)]>
               (<[path_of "data" := Dir]> fs))
  /\ is_file fs (path_of "data") = false.
Proof.
  unfold Pooled.save_json, Pooled.write_last_updated_file.
  destruct (makedirs "data" fs) as [fsa|] eqn:Ea; simpl; [|discriminate].
  destruct (open_write "data/products.json" _ fsa) as [fsb|] eqn:Eb;
    simpl; [|discriminate].
  intros [= <- <-].
  destruct (makedirs "data" fsb) as [fsc|] eqn:Ec; simpl; [|discriminate].
  intros Ed.
  apply open_write_inv in Eb as (_ & _ & ->).
  apply open_write_inv in Ed as (_ & _ & ->).
  pose proof (makedirs_data_inv _ _ Ea) as (Hd & _ & Hf).
  split; [reflexivity|]. split; [|exact Hf].
  assert (fsc = <[path_of "data/products.json" :=
                    File (dump (sorted name_code tuple_lt products))]> fsa) as ->.
  { rewrite makedirs_data in Ec. rewrite lookup_insert_ne in Ec by discriminate.
    change ["data"] with (path_of "data") in Hd. 
    change ["data"] with (path_of "data") in Ec. rewrite Hd in Ec.
    now injection Ec as <-. }
  do 2 f_equal.
  rewrite makedirs_data in Ea. change (path_of "data") with ["data"].
  destruct (fs !! ["data"]) as [[|c]|] eqn:E; simplify_eq; [|reflexivity].
  symmetry. now apply insert_id.
Qed.

(** * Price enrichment *)

Lemma priced_ext (cache cache' : gmap string string) (l : list entry) :
  (forall e, e ∈ l -> cache' !! entry_id e = cache !! entry_id e) ->
  map (priced cache') l = map (priced cache) l.
Proof.
  intros H. apply map_ext_in. intros e He%list_elem_of_In.
  unfold priced. now rewrite (H e He).
Qed.

Lemma snoc_split {A : Type} (r h t : list A) (a p : A) :
  r ++ [a] = h ++ p :: t ->
  (t = [] /\ h = r /\ p = a) \/ (exists t', t = t' ++ [a] /\ r = h ++ p :: t').
Proof.
  destruct t as [|z t _] using rev_ind; intros H.
  - left. apply app_inj_tail in H as [-> ->]. auto.
  - right. exists t.
    rewrite app_comm_cons, app_assoc in H. apply app_inj_tail in H as [-> ->].
    auto.
Qed.

Lemma enrich_step_unfold server st e :
  Sequential.enrich_step server st e =
  let st1 :=
    match Sequential.id_to_price st !! entry_id e with
    | None =>
        {| Sequential.id_to_price :=
             <[entry_id e := fetch_price (server (Sequential.requested st) (entry_id e))]>
               (Sequential.id_to_price st);
           Sequential.enriched := Sequential.enriched st;
           Sequential.requested := Sequential.requested st ++ [entry_id e] |}
    | Some _ => st
    end in
  {| Sequential.id_to_price := Sequential.id_to_price st1;
     Sequential.enriched :=
       Sequential.enriched st1 ++ [priced (Sequential.id_to_price st1) e];
     Sequential.requested := Sequential.requested st1 |}.
Proof.
  unfold Sequential.enrich_step, priced. cbv zeta.
  rewrite lookup_total_alt.
  destruct (_parse_code_and_name (entry_text e)) as [code name]. reflexivity.
Qed.

Lemma sequential_enrichment (server : price_server) (catalog : list entry) :
  let st := Sequential.enrich_loop server catalog in
  enrichment_of server catalog (Sequential.id_to_price st)
    (Sequential.enriched st) (Sequential.requested st)
  /\ (forall pid, is_Some (Sequential.id_to_price st !! pid)
                  <-> pid ∈ Sequential.requested st).
Proof.
  unfold Sequential.enrich_loop.
  induction catalog as [|e catalog IH] using rev_ind.
  - simpl. split; [split; [constructor|split; [reflexivity|split]]|].
    + intros [|? ?] ? ? H; discriminate H.
    + reflexivity.
    + intros pid. rewrite lookup_empty, elem_of_nil.
      split; [intros [? H]; discriminate H | tauto].
  - rewrite fold_left_app. cbn [fold_left].
    set (st := fold_left _ catalog _) in *. cbv zeta in IH.
    destruct IH as ((Hnd & Hmem & Hcache & Henr) & Hdom).
    rewrite enrich_step_unfold. cbv zeta.
    destruct (Sequential.id_to_price st !! entry_id e) as [v|] eqn:E; cbn.
    + (* the id is cached: no request *)
      assert (Hin : entry_id e ∈ Sequential.requested st) by (apply Hdom; eauto).
      split; [split; [exact Hnd|split; [|split]]|exact Hdom].
      * intros pid. rewrite map_app, elem_of_app, <- Hmem. simpl.
        rewrite list_elem_of_singleton. split; [auto|]. now intros [ ? | -> ].
      * exact Hcache.
      * now rewrite map_app, Henr.
    + (* a new id: one request, one cache entry *)
      assert (Hnin : entry_id e ∉ Sequential.requested st).
      { intros H%Hdom. rewrite E in H. now destruct H. }
      split; [split; [|split; [|split]]|].
      * apply NoDup_app. split; [exact Hnd|]. split; [|apply NoDup_singleton].
        intros x Hx ->%list_elem_of_singleton. contradiction.
      * intros pid. rewrite map_app, !elem_of_app, <- Hmem. reflexivity.
      * intros h pid t Hsplit.
        apply snoc_split in Hsplit as [(-> & -> & ->)|(t' & -> & Hr)].
        -- apply lookup_insert_eq.
        -- rewrite lookup_insert_ne; [now apply Hcache with t'|].
           intros <-. apply Hnin. rewrite Hr. apply elem_of_app. right. left.
      * rewrite map_app, Henr. f_equal. symmetry. apply priced_ext.
        intros e' He'. apply lookup_insert_ne. intros Heq. apply Hnin.
        apply Hmem. rewrite Heq. now apply (list_elem_of_fmap_2 entry_id).
      * intros pid. rewrite elem_of_app, list_elem_of_singleton, <- Hdom.
        rewrite lookup_insert. destruct (decide (entry_id e = pid)) as [->|Hne].
        -- split; [auto | eauto].
        -- split; [auto | intros [H|H]; [exact H | congruence]].
Qed.

Lemma or_else_empty (s : string) : PyStr.or_else s "" = s.
Proof. now destruct s. Qed.

Lemma enrich_entry_priced (cache : gmap string string) (e : entry) :
  Pooled.enrich_entry cache e = priced cache e.
Proof.
  unfold Pooled.enrich_entry, priced. cbv zeta.
  now destruct (_parse_code_and_name (entry_text e)).
Qed.

Lemma build_unique_ids_spec (catalog : list entry) :
  let acc := Pooled.build_unique_ids catalog in
  NoDup acc.2
  /\ (forall pid, pid ∈ acc.2 <-> pid ∈ map entry_id catalog)
  /\ (forall pid, acc.1 !! pid = if decide (pid ∈ acc.2) then Some "" else None).
Proof.
  unfold Pooled.build_unique_ids.
  induction catalog as [|e catalog IH] using rev_ind.
  - simpl. split; [constructor|]. split; [reflexivity|].
    intros pid. now rewrite lookup_empty.
  - rewrite fold_left_app. cbn [fold_left].
    destruct (fold_left _ catalog _) as [m u]. cbv zeta in IH. simpl in IH.
    destruct IH as (Hnd & Hmem & Hm). unfold Pooled.unique_step. simpl.
    rewrite Hm. destruct (decide (entry_id e ∈ u)) as [Hin|Hnin]; simpl.
    + split; [exact Hnd|]. split; [|exact Hm].
      intros pid. rewrite map_app, elem_of_app, <- Hmem. simpl.
      rewrite list_elem_of_singleton. split; [auto|]. now intros [ ? | -> ].
    + split; [|split].
      * apply NoDup_app. split; [exact Hnd|]. split; [|apply NoDup_singleton].
        intros x Hx ->%list_elem_of_singleton. contradiction.
      * intros pid. rewrite map_app, !elem_of_app, <- Hmem. reflexivity.
      * intros pid. rewrite lookup_insert, Hm.
        destruct (decide (entry_id e = pid)) as [->|Hne].
        -- rewrite decide_True; [reflexivity|]. apply elem_of_app. right. left.
        -- destruct (decide (pid ∈ u)) as [Hp|Hp].
           ++ rewrite decide_True; [reflexivity|]. apply elem_of_app. now left.
           ++ rewrite decide_False; [reflexivity|].
              rewrite elem_of_app, list_elem_of_singleton. intros [|]; congruence.
Qed.

Lemma run_pool_spec (server : price_server) (arrived : list string) :
  let acc := Pooled.run_pool server arrived in
  acc.2 = arrived
  /\ (NoDup arrived -> forall h pid t, arrived = h ++ pid :: t ->
        acc.1 !! pid = Some (fetch_price (server h pid))).
Proof.
  unfold Pooled.run_pool.
  induction arrived as [|a arrived IH] using rev_ind.
  - simpl. split; [reflexivity|]. intros _ [|? ?] ? ? H; discriminate H.
  - rewrite fold_left_app. cbn [fold_left].
    destruct (fold_left _ arrived _) as [res req]. cbv zeta in IH. simpl in IH.
    destruct IH as [-> IH]. unfold Pooled.serve. simpl.
    split; [reflexivity|].
    intros Hnd h pid t Hsplit. apply NoDup_app in Hnd as (Hnd & Hnin & _).
    apply snoc_split in Hsplit as [(-> & -> & ->)|(t' & -> & Hr)].
    + apply lookup_insert_eq.
    + rewrite lookup_insert_ne; [now apply (IH Hnd) with t'|].
      intros <-. apply (Hnin a); [|left]. rewrite Hr.
      apply elem_of_app. right. left.
Qed.

Lemma store_results_spec (results : gmap string string) (completed : list string) :
  forall (m : gmap string string) (pid : string),
    fold_left (Pooled.store_result results) completed m !! pid
    = if decide (pid ∈ completed) then Some (results !!! pid) else m !! pid.
Proof.
  induction completed as [|c completed IH]; intros m pid; simpl.
  - reflexivity.
  - rewrite IH. unfold Pooled.store_result. rewrite or_else_empty.
    destruct (decide (pid ∈ completed)) as [Hin|Hnin].
    + rewrite decide_True; [reflexivity | now right].
    + rewrite lookup_insert. destruct (decide (c = pid)) as [->|Hne].
      * rewrite decide_True; [reflexivity | left].
      * rewrite decide_False; [reflexivity|].
        rewrite elem_of_cons. intros [|]; congruence.
Qed.

Lemma pooled_enrichment (ex : Pooled.executor) (server : price_server)
    (catalog : list entry) :
  Pooled.fair ex ->
  enrichment_of server catalog (Pooled.fetch_all ex server catalog).1
    (Pooled.enrich_with_prices_log ex server catalog).1
    (Pooled.enrich_with_prices_log ex server catalog).2
  /\ (Pooled.enrich_with_prices_log ex server catalog).2
     = (Pooled.fetch_all ex server catalog).2.
Proof.
  intros Hfair. unfold Pooled.enrich_with_prices_log, Pooled.fetch_all.
  pose proof (build_unique_ids_spec catalog) as (Hnd & Hmem & Hm0).
  destruct (Pooled.build_unique_ids catalog) as [m0 u]. simpl in Hnd, Hmem, Hm0.
  destruct (Hfair u) as [Harr Hcompl].
  pose proof (run_pool_spec server (Pooled.arrival ex u)) as (Hreq & Hres).
  destruct (Pooled.run_pool server (Pooled.arrival ex u)) as [results requested].
  simpl in Hreq, Hres. subst requested. simpl.
  assert (Hnd' : NoDup (Pooled.arrival ex u)) by now rewrite Harr.
  split; [|reflexivity]. split; [exact Hnd'|]. split; [|split].
  - intros pid. now rewrite Harr.
  - intros h pid t Hsplit. rewrite store_results_spec.
    rewrite decide_True.
    + rewrite lookup_total_alt, (Hres Hnd' h pid t Hsplit). reflexivity.
    + rewrite Hcompl, <- Harr, Hsplit. apply elem_of_app. right. left.
  - apply map_ext. intros e. apply enrich_entry_priced.
Qed.

Lemma lookup_map {A B : Type} (f : A -> B) (l : list A) (i : nat) :
  map f l !! i = f <$> (l !! i).
Proof. apply (list_lookup_fmap f l i). Qed.

Lemma fetch_price_failed (r : reply string) : fetch_failed r -> fetch_price r = "".
Proof.
  destruct r as [|st text]; simpl; [reflexivity|]. intros H.
  destruct (Z.eqb_spec st 200); [contradiction | reflexivity].
Qed.

Lemma enrichment_one_fetch server catalog cache enriched requested :
  enrichment_of server catalog cache enriched requested ->
  one_fetch_per_id catalog enriched requested.
Proof.
  intros (Hnd & Hmem & _ & ->). split; [exact Hnd|]. split; [exact Hmem|].
  intros i j e1 e2 r1 r2 H1 H2. rewrite !lookup_map, H1, H2. simpl.
  intros [= <-] [= <-] Heq. simpl. now rewrite Heq.
Qed.

Lemma enrichment_failure_tolerant server catalog cache enriched requested :
  enrichment_of server catalog cache enriched requested ->
  failure_tolerant server catalog cache enriched requested.
Proof.
  intros (Hnd & Hmem & Hcache & ->). split; [apply length_map|].
  intros i e Hi. exists (priced cache e). rewrite lookup_map, Hi.
  split; [reflexivity|]. split.
  - simpl. now destruct (_parse_code_and_name (entry_text e)).
  - intros Hfail.
    assert (Hin : entry_id e ∈ requested).
    { apply Hmem, (list_elem_of_fmap_2 entry_id). now apply list_elem_of_lookup_2 in Hi. }
    apply list_elem_of_split in Hin as (h & t & Hsplit).
    pose proof (Hcache h _ t Hsplit) as Hc.
    rewrite (fetch_price_failed _ (Hfail h t Hsplit)) in Hc.
    split; [exact Hc|]. simpl. now rewrite Hc.
Qed.

Lemma enrichment_priced_by (prices : string -> reply string) catalog cache
    enriched requested :
  enrichment_of (fun _ => prices) catalog cache enriched requested ->
  enriched = map (priced_by prices) catalog.
Proof.
  intros (Hnd & Hmem & Hcache & ->). apply map_ext_in.
  intros e He%list_elem_of_In. unfold priced, priced_by. f_equal.
  assert (Hin : entry_id e ∈ requested)
    by now apply Hmem, (list_elem_of_fmap_2 entry_id).
  apply list_elem_of_split in Hin as (h & t & Hsplit).
  now rewrite (Hcache h _ t Hsplit).
Qed.

(** * Sorting and saving *)

Lemma Sorted_lex_le (l : list enriched_product) :
  Sorted (key_le name_code tuple_lt) l ->
  Sorted (fun p q => lex_le (name_code p) (name_code q)) l.
Proof.
  induction 1 as [|x l Hs IH Hhd]; constructor; [exact IH|].
  destruct Hhd as [|y l Hxy]; constructor. now apply tuple_lt_lex_le.
Qed.

Lemma sequential_save_json_inv (dump : list enriched_product -> string)
    (products : list enriched_product) (fs fs' : filesystem)
    (l : list enriched_product) :
  Sequential.save_json dump products fs = Some (fs', l) ->
  l = sorted name_code tuple_lt products
  /\ fs' = <[path_of "products.json" := File (dump l)]> fs.
Proof.
  unfold Sequential.save_json.
  destruct (open_write "products.json" _ fs) as [fsa|] eqn:E; simpl; [|discriminate].
  intros [= <- <-]. apply open_write_inv in E as (_ & _ & ->). auto.
Qed.

Lemma pooled_save_json_inv (dump : list enriched_product -> string)
    (products : list enriched_product) (fs fs' : filesystem)
    (l : list enriched_product) :
  Pooled.save_json dump products fs = Some (fs', l) ->
  l = sorted name_code tuple_lt products
  /\ fs' !! path_of "data/products.json" = Some (File (dump l)).
Proof.
  unfold Pooled.save_json.
  destruct (makedirs "data" fs) as [fsa|]; simpl; [|discriminate].
  destruct (open_write "data/products.json" _ fsa) as [fsb|] eqn:E;
    simpl; [|discriminate].
  intros [= <- <-]. apply open_write_inv in E as (_ & _ & ->).
  split; [reflexivity | apply lookup_insert_eq].
Qed.

(** C5: the list [save_json] returns and dumps is its input sorted by
    (product_name, product_code) in the lexicographic order of strings: it
    is sorted, it is a permutation of the input, records of equal key keep
    their input order; on an empty file system both scripts do return it;
    and Banana/1, Apple/2, Apple/1 come out as Apple/1, Apple/2,
    Banana/1. *)
Theorem save_json_sorts_stably (products : list enriched_product) :
  let out := sorted name_code tuple_lt products in
  Sorted (fun p q => lex_le (name_code p) (name_code q)) out
  /\ out ≡ₚ products
  /\ (forall k, filter (fun p => name_code p = k) out
                = filter (fun p => name_code p = k) products)
  /\ (forall dump (fs fs' : filesystem) l,
        Sequential.save_json dump products fs = Some (fs', l) ->
        l = out /\ fs' !! path_of "products.json" = Some (File (dump out)))
  /\ (forall dump (fs fs' : filesystem) l,
        Pooled.save_json dump products fs = Some (fs', l) ->
        l = out /\ fs' !! path_of "data/products.json" = Some (File (dump out)))
  /\ (forall dump, exists fs' : filesystem,
        Sequential.save_json dump products ∅ = Some (fs', out))
  /\ (forall dump, exists fs' : filesystem,
        Pooled.save_json dump products ∅ = Some (fs', out))
  /\ (forall p1 p2 p3,
        sorted name_code tuple_lt
          [product_of "Banana" "1" p1; product_of "Apple" "2" p2;
           product_of "Apple" "1" p3]
        = [product_of "Apple" "1" p3; product_of "Apple" "2" p2;
           product_of "Banana" "1" p1]).
Proof.
  intros out. subst out.
  split; [apply Sorted_lex_le,
            (sorted_Sorted name_code tuple_lt tuple_lt_irrefl tuple_lt_trans)|].
  split; [apply sorted_perm|].
  split; [intros k; apply sorted_stable, tuple_lt_irrefl|].
  split.
  { intros dump fs fs' l H. apply sequential_save_json_inv in H as [-> ->].
    split; [reflexivity | apply lookup_insert_eq]. }
  split.
  { intros dump fs fs' l H. apply pooled_save_json_inv in H as [-> H].
    auto. }
  split; [intros dump; eexists; reflexivity|].
  split; [intros dump; eexists; reflexivity|].
  intros p1 p2 p3. reflexivity.
Qed.

Lemma save_json_sorts_stably_witness :
  [] = sorted name_code tuple_lt []
  /\ (<[path_of "data/products.json" := File "[]"]>
        (<[path_of "data" := Dir]> (∅ : filesystem)))
      !! path_of "data/products.json" = Some (File "[]").
Proof.
  apply (proj1 (proj2 (proj2 (proj2 (proj2 (save_json_sorts_stably [])))))
               (fun _ => "[]") ∅).
  vm_compute. reflexivity.
Defined.

(** * The output files *)

Lemma sequential_persist_inv (dump : list enriched_product -> string)
    {date : Type} (fmt : date -> string)
    (products : list enriched_product) (today : date)
    (fs fs1 fs2 : filesystem) (l : list enriched_product) :
  Sequential.save_json dump products fs = Some (fs1, l) ->
  Sequential.write_last_updated_file fmt today fs1 = Some fs2 ->
  fs2 = <[path_of "last_updated.txt" := File (fmt today)]>
          (<[path_of "products.json" := File (dump l)]> fs).
Proof.
  intros H1 H2. apply sequential_save_json_inv in H1 as [_ ->].
  unfold Sequential.write_last_updated_file in H2.
  now apply open_write_inv in H2 as (_ & _ & ->).
Qed.

Lemma bind_Some {A B : Type} (x : A) (f : A -> option B) : (Some x ≫= f) = f x.
Proof. reflexivity. Qed.

Lemma makedirs_data_ok (fs : filesystem) :
  is_file fs (path_of "data") = false ->
  makedirs "data" fs = Some (<[path_of "data" := Dir]> fs).
Proof.
  rewrite makedirs_data. unfold is_file. change (path_of "data") with ["data"].
  destruct (fs !! ["data"]) as [[|c]|] eqn:E; [|discriminate|reflexivity].
  intros _. now rewrite insert_id.
Qed.

Lemma open_write_ok (name content : string) (fs : filesystem) :
  is_dir fs (parent (path_of name)) = true ->
  is_dir fs (path_of name) = false ->
  open_write name content fs = Some (<[path_of name := File content]> fs).
Proof. intros H1 H2. unfold open_write. now rewrite H1, H2. Qed.

Lemma is_dir_insert_ne (fs : filesystem) (p q : list string) (n : node) :
  is_dir fs p = false -> p <> q -> is_dir (<[q := n]> fs) p = false.
Proof.
  intros Hp Hne. unfold is_dir in *. destruct p; [exact Hp|].
  now rewrite lookup_insert_ne by congruence.
Qed.

(** C8, as the code has it: the thread-pool script writes both files into
    the directory [data] under the working directory, which it creates when
    absent, and replaces what the files held, touching nothing else; it
    succeeds unless [data] is a file or an output path is a directory.  The
    original script writes both files into the working directory itself. *)
Theorem output_files_location (dump : list enriched_product -> string)
    (date : Type) (fmt : date -> string) (products : list enriched_product)
    (today : date) (fs : filesystem) :
  (forall (fs1 fs2 : filesystem) l,
     Pooled.save_json dump products fs = Some (fs1, l) ->
     Pooled.write_last_updated_file fmt today fs1 = Some fs2 ->
     fs2 !! path_of "data" = Some Dir
     /\ fs2 !! path_of "data/products.json" = Some (File (dump l))
     /\ fs2 !! path_of "data/last_updated.txt" = Some (File (fmt today))
     /\ written_in fs fs2 (path_of "data")
     /\ path_of "data" <> []
     /\ (forall p, p <> path_of "data" -> p <> path_of "data/products.json" ->
                   p <> path_of "data/last_updated.txt" -> fs2 !! p = fs !! p))
  /\ (is_file fs (path_of "data") = false ->
      is_dir fs (path_of "data/products.json") = false ->
      is_dir fs (path_of "data/last_updated.txt") = false ->
      exists (fs1 fs2 : filesystem) l,
        Pooled.save_json dump products fs = Some (fs1, l)
        /\ Pooled.write_last_updated_file fmt today fs1 = Some fs2)
  /\ (forall (fs1 fs2 : filesystem) l,
        Sequential.save_json dump products fs = Some (fs1, l) ->
        Sequential.write_last_updated_file fmt today fs1 = Some fs2 ->
        fs2 !! path_of "products.json" = Some (File (dump l))
        /\ fs2 !! path_of "last_updated.txt" = Some (File (fmt today))
        /\ written_in fs fs2 []
        /\ (forall p, p <> path_of "products.json" ->
                      p <> path_of "last_updated.txt" -> fs2 !! p = fs !! p)).
Proof.
  split; [|split].
  - intros fs1 fs2 l H1 H2.
    destruct (pooled_persist_inv dump fmt products today fs fs1 fs2 l H1 H2)
      as (_ & -> & _).
    split; [now rewrite !lookup_insert_ne, lookup_insert_eq by discriminate|].
    split; [now rewrite lookup_insert_ne, lookup_insert_eq by discriminate|].
    split; [apply lookup_insert_eq|].
    split; [|split; [discriminate|]].
    + intros p content Hp Hne.
      destruct (decide (p = path_of "data/last_updated.txt")) as [->|N1];
        [reflexivity|].
      rewrite lookup_insert_ne in Hp by congruence.
      destruct (decide (p = path_of "data/products.json")) as [->|N2];
        [reflexivity|].
      rewrite lookup_insert_ne in Hp by congruence.
      destruct (decide (p = path_of "data")) as [->|N3].
      * rewrite lookup_insert_eq in Hp. discriminate Hp.
      * rewrite lookup_insert_ne in Hp by congruence. contradiction.
    + intros p N1 N2 N3. now rewrite !lookup_insert_ne by congruence.
  - intros Hf Hd1 Hd2.
    unfold Pooled.save_json, Pooled.write_last_updated_file.
    rewrite (makedirs_data_ok fs Hf), bind_Some. cbv beta.
    rewrite open_write_ok, bind_Some; cbv beta.
    + eexists _, _, _. split; [reflexivity|].
      rewrite makedirs_data_ok, bind_Some; cbv beta.
      * apply open_write_ok.
        -- unfold is_dir at 1. change (parent _) with ["data"].
           now rewrite lookup_insert_eq.
        -- repeat (apply is_dir_insert_ne; [|discriminate]). exact Hd2.
      * unfold is_file. now rewrite lookup_insert_ne, lookup_insert_eq by discriminate.
    + unfold is_dir at 1. change (parent _) with ["data"].
      now rewrite lookup_insert_eq.
    + apply is_dir_insert_ne; [exact Hd1 | discriminate].
  - intros fs1 fs2 l H1 H2.
    rewrite (sequential_persist_inv dump fmt products today fs fs1 fs2 l H1 H2).
    split; [now rewrite lookup_insert_ne, lookup_insert_eq by discriminate|].
    split; [apply lookup_insert_eq|]. split.
    + intros p content Hp Hne.
      destruct (decide (p = path_of "last_updated.txt")) as [->|N1];
        [reflexivity|].
      rewrite lookup_insert_ne in Hp by congruence.
      destruct (decide (p = path_of "products.json")) as [->|N2];
        [reflexivity|].
      rewrite lookup_insert_ne in Hp by congruence. contradiction.
    + intros p N1 N2. now rewrite !lookup_insert_ne by congruence.
Qed.

Lemma output_files_location_witness :
  exists (fs1 fs2 : filesystem) l,
    Pooled.save_json (fun _ => "[]") [] ∅ = Some (fs1, l)
    /\ Pooled.write_last_updated_file (fun d : string => d) "2025-01-31" fs1
       = Some fs2.
Proof.
  apply (proj1 (proj2 (output_files_location (fun _ => "[]") string
                         (fun d => d) [] "2025-01-31" ∅)));
    vm_compute; reflexivity.
Defined.

(** C8 as stated fails for the original script: [products.json] lands in
    the working directory. *)
Lemma sequential_writes_into_working_directory :
  ~ (forall dump products (fs fs1 : filesystem) l,
       Sequential.save_json dump products fs = Some (fs1, l) ->
       exists d, d <> [] /\ written_in fs fs1 d).
Proof.
  intros H.
  destruct (H (fun _ => "[]") [] ∅
              (<[path_of "products.json" := File "[]"]> ∅) [])
    as (d & Hd & Hw); [vm_compute; reflexivity|].
  apply Hd. symmetry.
  apply (Hw (path_of "products.json") "[]"); [vm_compute; reflexivity|].
  vm_compute. discriminate.
Qed.

(** * One request per id, and failed requests *)

(** C4: in both scripts the price endpoint is asked once for each distinct
    id of the catalog, however many entries share the id, and the records of
    entries with one id carry one price, also when the endpoint would answer
    the same id differently each time. *)
Theorem enrich_fetches_each_id_once (server : price_server)
    (catalog : list entry) :
  one_fetch_per_id catalog
    (Sequential.enrich_with_prices server catalog)
    (Sequential.requested (Sequential.enrich_loop server catalog))
  /\ (forall ex, Pooled.fair ex ->
        one_fetch_per_id catalog
          (Pooled.enrich_with_prices ex server catalog)
          (Pooled.enrich_with_prices_log ex server catalog).2).
Proof.
  split.
  - apply (enrichment_one_fetch server _ _ _ _
             (proj1 (sequential_enrichment server catalog))).
  - intros ex Hfair.
    apply (enrichment_one_fetch server _ _ _ _
             (proj1 (pooled_enrichment ex server catalog Hfair))).
Qed.

Lemma enrich_fetches_each_id_once_witness :
  one_fetch_per_id shared_id_catalog
    (Pooled.enrich_with_prices Pooled.last_first counting_server
       shared_id_catalog)
    (Pooled.enrich_with_prices_log Pooled.last_first counting_server
       shared_id_catalog).2.
Proof.
  apply (proj2 (enrich_fetches_each_id_once counting_server shared_id_catalog)).
  intros l. split; [reflexivity | apply reverse_Permutation].
Defined.

(** C7: in both scripts, when the request for the price of an id raises or
    is answered with a status other than 200, the cache holds the empty
    string for the id and the record of every entry with this id has the
    empty price; every entry of the catalog still gets its record, with the
    code and name parsed from its text. *)
Theorem failed_fetch_gives_empty_price (server : price_server)
    (catalog : list entry) :
  (let st := Sequential.enrich_loop server catalog in
   failure_tolerant server catalog (Sequential.id_to_price st)
     (Sequential.enrich_with_prices server catalog) (Sequential.requested st))
  /\ (forall ex, Pooled.fair ex ->
        failure_tolerant server catalog
          (Pooled.fetch_all ex server catalog).1
          (Pooled.enrich_with_prices ex server catalog)
          (Pooled.fetch_all ex server catalog).2).
Proof.
  split.
  - apply (enrichment_failure_tolerant server _ _ _ _
             (proj1 (sequential_enrichment server catalog))).
  - intros ex Hfair.
    destruct (pooled_enrichment ex server catalog Hfair) as [H <-].
    exact (enrichment_failure_tolerant server _ _ _ _ H).
Qed.

Lemma failed_fetch_gives_empty_price_witness :
  exists r,
    Sequential.enrich_with_prices counting_server shared_id_catalog !! 1%nat
    = Some r /\ marketing_price r = "".
Proof.
  destruct (proj2 (proj1 (failed_fetch_gives_empty_price counting_server
                            shared_id_catalog))
              1%nat {| entry_id := "7"; entry_text := "B / Y" |} eq_refl)
    as (r & Hr & _ & Hfail).
  exists r. split; [exact Hr|].
  apply Hfail. intros h t _. exact I.
Defined.

(** * The two scripts compared *)

Lemma elem_of_seen post order (it : item) :
  it ∈ seen post order <->
  exists term, term ∈ order /\ it ∈ fetch_products_for_term post term.
Proof.
  unfold seen. rewrite list_elem_of_In, in_flat_map.
  split; intros (t & Ht & Hit); exists t;
    [rewrite !list_elem_of_In | rewrite <- !list_elem_of_In]; auto.
Qed.

Lemma catalogs_permuted post (order1 order2 : list string) :
  order1 ≡ₚ order2 ->
  first_occurrences (filter usable (map key_of (seen post order1)))
  ≡ₚ first_occurrences (filter usable (map key_of (seen post order2))).
Proof.
  intros Hp. apply NoDup_Permutation; try apply NoDup_first_occurrences.
  intros k. rewrite !elem_of_first_occurrences, !list_elem_of_filter.
  change (map key_of ?l) with (key_of <$> l).
  rewrite !list_elem_of_fmap. setoid_rewrite elem_of_seen.
  split; intros (Hu & it & -> & t & Ht & Hit); (split; [exact Hu|]);
    exists it; (split; [reflexivity|]); exists t; (split; [|exact Hit]).
  - now rewrite <- Hp.
  - now rewrite Hp.
Qed.

Lemma pooled_catalog_permuted (ex : Pooled.executor) post :
  Pooled.fair ex ->
  Pooled.collect_full_catalog ex post ≡ₚ Sequential.collect_full_catalog post.
Proof.
  intros Hfair. unfold Pooled.collect_full_catalog, Sequential.collect_full_catalog.
  rewrite !catalog_over. apply Permutation_map, catalogs_permuted.
  apply (Hfair terms).
Qed.

Lemma sequential_priced_by (prices : string -> reply string) catalog :
  Sequential.enrich_with_prices (fun _ => prices) catalog
  = map (priced_by prices) catalog.
Proof.
  unfold Sequential.enrich_with_prices.
  exact (enrichment_priced_by prices _ _ _ _
           (proj1 (sequential_enrichment (fun _ => prices) catalog))).
Qed.

Lemma pooled_priced_by (ex : Pooled.executor) (prices : string -> reply string)
    catalog :
  Pooled.fair ex ->
  Pooled.enrich_with_prices ex (fun _ => prices) catalog
  = map (priced_by prices) catalog.
Proof.
  intros Hfair. unfold Pooled.enrich_with_prices.
  exact (enrichment_priced_by prices _ _ _ _
           (proj1 (pooled_enrichment ex (fun _ => prices) catalog Hfair))).
Qed.

Lemma in_order_fair : Pooled.fair Pooled.in_order.
Proof. intros l. split; reflexivity. Qed.

Lemma last_first_fair : Pooled.fair Pooled.last_first.
Proof. intros l. split; [reflexivity | apply reverse_Permutation]. Qed.

(** C9, as the code has it: for the same answers of the search and price
    endpoints, whatever the order in which the pool completes its work, the
    thread-pool script collects a rearrangement of the catalog of the
    sequential script, and the sorted lists the two scripts save are
    rearrangements of each other with the same sequence of
    (product_name, product_code) keys; they are equal when no two different
    records share such a key. *)
Theorem pooled_agrees_with_sequential_up_to_ties (ex : Pooled.executor)
    (post : string -> reply (option payload)) (prices : string -> reply string) :
  Pooled.fair ex ->
  let sequential :=
    sorted name_code tuple_lt
      (Sequential.enrich_with_prices (fun _ => prices)
         (Sequential.collect_full_catalog post)) in
  let pooled :=
    sorted name_code tuple_lt
      (Pooled.enrich_with_prices ex (fun _ => prices)
         (Pooled.collect_full_catalog ex post)) in
  Pooled.collect_full_catalog ex post ≡ₚ Sequential.collect_full_catalog post
  /\ pooled ≡ₚ sequential
  /\ map name_code pooled = map name_code sequential
  /\ ((forall x y, x ∈ sequential -> y ∈ sequential ->
         name_code x = name_code y -> x = y) ->
      pooled = sequential).
Proof.
  intros Hfair sequential pooled. subst sequential pooled.
  pose proof (pooled_catalog_permuted ex post Hfair) as Hcat.
  rewrite sequential_priced_by, (pooled_priced_by ex prices _ Hfair).
  assert (Hp : map (priced_by prices) (Pooled.collect_full_catalog ex post)
               ≡ₚ map (priced_by prices) (Sequential.collect_full_catalog post))
    by now apply Permutation_map.
  split; [exact Hcat|]. split; [|split].
  - now rewrite !sorted_perm.
  - apply (sorted_keys_perm name_code tuple_lt
             tuple_lt_irrefl tuple_lt_trans tuple_lt_total _ _ Hp).
  - intros Hinj. symmetry.
    apply (sorted_perm_inj name_code tuple_lt
             tuple_lt_irrefl tuple_lt_trans tuple_lt_total); [now symmetry|].
    intros x y Hx Hy. apply Hinj; now rewrite sorted_perm.
Qed.

(** C9 as stated fails: with two ids under one text, the records tie in
    the sort and the completion order shows in the output. *)
Lemma completion_order_shows_in_output :
  ~ (forall ex post (prices : string -> reply string),
       Pooled.fair ex ->
       sorted name_code tuple_lt
         (Pooled.enrich_with_prices ex (fun _ => prices)
            (Pooled.collect_full_catalog ex post))
       = sorted name_code tuple_lt
           (Sequential.enrich_with_prices (fun _ => prices)
              (Sequential.collect_full_catalog post))).
Proof.
  intros H.
  specialize (H Pooled.last_first tie_search tie_prices last_first_fair).
  vm_compute in H. discriminate H.
Qed.

Lemma pooled_agrees_with_sequential_up_to_ties_witness :
  map name_code
    (sorted name_code tuple_lt
       (Pooled.enrich_with_prices Pooled.last_first (fun _ => tie_prices)
          (Pooled.collect_full_catalog Pooled.last_first tie_search)))
  = map name_code
      (sorted name_code tuple_lt
         (Sequential.enrich_with_prices (fun _ => tie_prices)
            (Sequential.collect_full_catalog tie_search))).
Proof.
  apply (pooled_agrees_with_sequential_up_to_ties Pooled.last_first
           tie_search tie_prices).
  intros l. split; [reflexivity | apply reverse_Permutation].
Defined.

(** * More on the string methods *)

Lemma app_assoc_s (a b c : string) : (a +:+ b) +:+ c = a +:+ (b +:+ c).
Proof. induction a as [|x a IH]; [reflexivity|]. now rewrite !app_String, IH. Qed.

Lemma app_empty_r (a : string) : a +:+ "" = a.
Proof. induction a as [|x a IH]; [reflexivity|]. now rewrite app_String, IH. Qed.

Lemma chars_app (a b : string) :
  list_ascii_of_string (a +:+ b)
  = list_ascii_of_string a ++ list_ascii_of_string b.
Proof.
  induction a as [|x a IH]; [reflexivity|]. rewrite app_String. simpl.
  now rewrite IH.
Qed.

Lemma all_space_app (a b : string) :
  all_space (a +:+ b) <-> all_space a /\ all_space b.
Proof. unfold all_space. rewrite chars_app. apply Forall_app. Qed.

Lemma slash_free_app (a b : string) :
  slash_free (a +:+ b) <-> slash_free a /\ slash_free b.
Proof. unfold slash_free. rewrite chars_app, not_elem_of_app. reflexivity. Qed.

Lemma all_space_slash_free (s : string) : all_space s -> slash_free s.
Proof.
  unfold all_space, slash_free. intros H Hin.
  apply (proj1 (Forall_forall _ _) H) in Hin. discriminate Hin.
Qed.

Lemma rstrip_id (s : string) : not_space (last_char s) -> PyStr.rstrip s = s.
Proof.
  induction s as [|c s IH]; [reflexivity|]. intros H.
  destruct s as [|d s].
  - simpl in *. now rewrite H.
  - change (last_char (String c (String d s))) with (last_char (String d s)) in H.
    change (PyStr.rstrip (String c (String d s))) with
      (match PyStr.rstrip (String d s) with
       | "" => if PyStr.isspace c then "" else String c ""
       | r => String c r
       end).
    now rewrite (IH H).
Qed.

(** [strip] keeps exactly the strings that neither begin nor end with
    white space. *)
Lemma trimmed_iff (s : string) :
  trimmed s <-> not_space (first_char s) /\ not_space (last_char s).
Proof.
  unfold trimmed. split.
  - intros H. rewrite <- H. split; [apply strip_first | apply strip_last].
  - intros [H1 H2]. unfold PyStr.strip. rewrite (lstrip_id _ H1).
    now apply rstrip_id.
Qed.

Lemma lstrip_all_space (l s : string) :
  all_space l -> PyStr.lstrip (l +:+ s) = PyStr.lstrip s.
Proof.
  unfold all_space. induction l as [|c l IH]; [reflexivity|].
  intros H. apply Forall_cons in H as [Hc Hl].
  rewrite app_String. cbn [PyStr.lstrip]. rewrite Hc. now apply IH.
Qed.

Lemma rstrip_all_space_only (r : string) : all_space r -> PyStr.rstrip r = "".
Proof.
  unfold all_space. induction r as [|c r IH]; [reflexivity|].
  simpl. intros H. apply Forall_cons in H as [Hc Hr].
  now rewrite (IH Hr), Hc.
Qed.

Lemma rstrip_all_space (s r : string) :
  all_space r -> PyStr.rstrip (s +:+ r) = PyStr.rstrip s.
Proof.
  intros Hr. induction s as [|c s IH].
  - now apply rstrip_all_space_only.
  - rewrite app_String. simpl. now rewrite IH.
Qed.

(** White space around a trimmed string is all that [strip] removes. *)
Lemma strip_padded (l s r : string) :
  all_space l -> all_space r -> trimmed s ->
  PyStr.strip (l +:+ s +:+ r) = s.
Proof.
  intros Hl Hr Hs. unfold PyStr.strip.
  rewrite (lstrip_all_space l _ Hl).
  apply trimmed_iff in Hs as [H1 H2].
  destruct s as [|c s].
  - change ("" +:+ r) with r.
    assert (PyStr.lstrip r = "") as ->; [|reflexivity].
    clear -Hr. unfold all_space in Hr. induction r as [|c r IH]; [reflexivity|].
    simpl in *. apply Forall_cons in Hr as [Hc Hr]. rewrite Hc. now apply IH.
  - rewrite lstrip_id by exact H1.
    rewrite (rstrip_all_space _ r Hr). now apply rstrip_id.
Qed.

Lemma strip_slash_free (s : string) : slash_free s -> slash_free (PyStr.strip s).
Proof.
  intros H. destruct (strip_decompose s) as (l & r & Hs & _).
  rewrite Hs in H. apply slash_free_app in H as [_ H].
  now apply slash_free_app in H as [H _].
Qed.

Lemma split_slash_free (s : string) : slash_free s -> PyStr.split "/" s = [s].
Proof.
  unfold slash_free. induction s as [|c s IH]; [reflexivity|].
  simpl. intros H. apply not_elem_of_cons in H as [Hc Hs].
  destruct (Ascii.eqb_spec c "/") as [->|_]; [contradiction|].
  now rewrite (IH Hs).
Qed.

Lemma split_app_slash (a b : string) :
  slash_free a ->
  PyStr.split "/" (a +:+ String "/" b) = a :: PyStr.split "/" b.
Proof.
  unfold slash_free. induction a as [|c a IH]; [reflexivity|].
  intros H. apply not_elem_of_cons in H as [Hc Ha].
  rewrite app_String. cbn [PyStr.split].
  destruct (Ascii.eqb_spec c "/") as [->|_]; [contradiction|].
  now rewrite (IH Ha).
Qed.

Lemma segments_segment_like (text : string) :
  Forall segment_like (segments text).
Proof.
  unfold segments. apply Forall_forall. intros s Hs.
  apply list_elem_of_In, filter_In in Hs as [Hin Hne].
  apply in_map_iff in Hin as (p & <- & Hp). split; [apply strip_idem|].
  split; [now apply truthy_true|].
  apply strip_slash_free.
  exact (proj1 (Forall_forall _ _) (split_no_sep "/" text) p
           (proj2 (list_elem_of_In _ _) Hp)).
Qed.

Lemma first_char_app (a b : string) :
  a <> "" -> first_char (a +:+ b) = first_char a.
Proof. destruct a; [contradiction | reflexivity]. Qed.

Lemma last_char_app (a b : string) :
  b <> "" -> last_char (a +:+ b) = last_char b.
Proof.
  intros Hb. induction a as [|c a IH]; [reflexivity|].
  rewrite app_String. destruct (a +:+ b) eqn:E.
  - destruct a; [|discriminate E]. now destruct b.
  - exact IH.
Qed.

Lemma app_not_empty_r (a b : string) : b <> "" -> a +:+ b <> "".
Proof. destruct a; [trivial | discriminate]. Qed.

Lemma join_not_empty (sep p : string) (ps : list string) :
  p <> "" -> PyStr.join sep (p :: ps) <> "".
Proof.
  intros Hp. destruct ps; [exact Hp|]. cbn [PyStr.join].
  destruct p; [contradiction | discriminate].
Qed.

Lemma join_cons2 (sep p q : string) (ps : list string) :
  PyStr.join sep (p :: q :: ps) = p +:+ sep +:+ PyStr.join sep (q :: ps).
Proof. reflexivity. Qed.

Lemma segment_like_chars (s : string) :
  segment_like s ->
  not_space (first_char s) /\ not_space (last_char s) /\ s <> "".
Proof. intros (Ht & Hne & _). apply trimmed_iff in Ht. tauto. Qed.

Lemma join_trimmed (segs : list string) :
  Forall segment_like segs -> trimmed (PyStr.join " / " segs).
Proof.
  intros H. apply trimmed_iff. induction H as [|p ps Hp Hps IH].
  - split; exact I.
  - destruct ps as [|q ps]; [apply segment_like_chars in Hp; tauto|].
    rewrite join_cons2.
    pose proof (segment_like_chars _ Hp) as (Hf & _ & Hne).
    apply Forall_cons in Hps as [Hq Hps'].
    pose proof (segment_like_chars _ Hq) as (_ & _ & Hqne).
    split.
    + now rewrite first_char_app.
    + rewrite !last_char_app; [apply IH| |].
      * now apply join_not_empty.
      * apply app_not_empty_r. now apply join_not_empty.
Qed.

(** X1: the code returned is trimmed and has no slash, the name is trimmed,
    and the code is empty exactly when the text has no segment. *)
Theorem parse_result_shape (text : string) :
  slash_free (_parse_code_and_name text).1
  /\ trimmed (_parse_code_and_name text).1
  /\ trimmed (_parse_code_and_name text).2
  /\ ((_parse_code_and_name text).1 = "" <-> segments text = []).
Proof.
  rewrite parse_unfold. pose proof (segments_segment_like text) as H.
  destruct (segments text) as [|c [|d rest]]; cbn [fst snd].
  - split; [apply not_elem_of_nil|]. split; [reflexivity|].
    split; [apply strip_idem | tauto].
  - apply Forall_cons in H as [(Ht & Hne & Hs) _].
    split; [exact Hs|]. split; [exact Ht|]. split; [apply strip_idem|].
    split; [contradiction | discriminate].
  - apply Forall_cons in H as [(Ht & Hne & Hs) H].
    split; [exact Hs|]. split; [exact Ht|].
    split; [exact (join_trimmed (d :: rest) H)|].
    split; [contradiction | discriminate].
Qed.

(** X2: a text without slash is its own code and its own name, trimmed. *)
Theorem parse_without_slash (text : string) :
  slash_free text ->
  _parse_code_and_name text = (PyStr.strip text, PyStr.strip text).
Proof.
  intros H. rewrite parse_unfold. unfold segments.
  rewrite (split_slash_free _ H). simpl.
  destruct (PyStr.strip text); reflexivity.
Qed.

Lemma parse_without_slash_witness :
  _parse_code_and_name "  Solo Name " = ("Solo Name", "Solo Name").
Proof. apply (parse_without_slash "  Solo Name "). vm_compute.
  intros H. repeat (apply elem_of_cons in H as [H|H]; [discriminate H|]).
  now apply elem_of_nil in H.
Defined.

Lemma segments_join (segs : list string) :
  Forall segment_like segs -> segs <> [] ->
  forall l, all_space l -> segments (l +:+ PyStr.join " / " segs) = segs.
Proof.
  induction 1 as [|p ps Hp Hps IH]; [contradiction|]. intros _ l Hl.
  destruct Hp as (Ht & Hne & Hs).
  destruct ps as [|q ps].
  - cbn [PyStr.join]. unfold segments. rewrite split_slash_free.
    + cbn [map List.filter].
      replace (l +:+ p) with (l +:+ p +:+ "") by now rewrite app_empty_r.
      rewrite (strip_padded l p "" Hl) by (trivial || constructor).
      now destruct p.
    + apply slash_free_app. split; [now apply all_space_slash_free | exact Hs].
  - rewrite join_cons2.
    change (" / " +:+ ?x) with (String " " (String "/" (" " +:+ x))).
    assert (E : l +:+ p +:+ String " " (String "/" (" " +:+ PyStr.join " / " (q :: ps)))
                = (l +:+ p +:+ " ") +:+ String "/" (" " +:+ PyStr.join " / " (q :: ps))).
    { now rewrite !app_assoc_s. }
    rewrite E. unfold segments. rewrite split_app_slash.
    + cbn [map List.filter].
      rewrite (strip_padded l p " " Hl) by (trivial || (repeat constructor)).
      assert (PyStr.truthy p = true) as -> by now apply truthy_true.
      f_equal. apply (IH ltac:(discriminate) " "). repeat constructor.
    + rewrite !slash_free_app. split; [now apply all_space_slash_free|].
      split; [exact Hs|]. apply all_space_slash_free. repeat constructor.
Qed.

(** X3: parsing what [" / ".join] makes of segment-like strings gives the
    first one as the code and the join of the others as the name. *)
Theorem parse_join (code second : string) (rest : list string) :
  Forall segment_like (code :: second :: rest) ->
  _parse_code_and_name (PyStr.join " / " (code :: second :: rest))
  = (code, PyStr.join " / " (second :: rest)).
Proof.
  intros H. rewrite parse_unfold.
  pose proof (segments_join _ H ltac:(discriminate) "" ltac:(constructor)) as E.
  change ("" +:+ ?x) with x in E. now rewrite E.
Qed.

Lemma parse_join_witness :
  _parse_code_and_name (PyStr.join " / " ["A1"; "Blue"; "Widget"])
  = ("A1", PyStr.join " / " ["Blue"; "Widget"]).
Proof.
  apply (parse_join "A1" "Blue" ["Widget"]).
  repeat constructor; try reflexivity; try discriminate;
    vm_compute; intros H;
    repeat (apply elem_of_cons in H as [H|H]; [discriminate H|]);
    now apply elem_of_nil in H.
Defined.

(** X4: with two segments or more, parsing "code / name" again gives the
    same code and name. *)
Theorem parse_again (text : string) :
  (2 <= length (segments text))%nat ->
  _parse_code_and_name
    ((_parse_code_and_name text).1 +:+ " / " +:+ (_parse_code_and_name text).2)
  = _parse_code_and_name text.
Proof.
  intros Hlen. rewrite (parse_unfold text).
  pose proof (segments_segment_like text) as H.
  destruct (segments text) as [|c [|d rest]]; simpl in Hlen; try lia.
  cbn [fst snd]. rewrite <- join_cons2. now apply parse_join.
Qed.

Lemma parse_again_witness :
  _parse_code_and_name ("A" +:+ " / " +:+ "B / C") = ("A", "B / C").
Proof.
  apply (parse_again " A/B /C "). vm_compute. lia.
Defined.

(** * More on the catalog *)

Lemma strip_all_space (s : string) : all_space s -> PyStr.strip s = "".
Proof.
  intros H. rewrite <- (app_empty_r s).
  change (s +:+ "") with (s +:+ "" +:+ "").
  apply (strip_padded s "" ""); [exact H | constructor | reflexivity].
Qed.

(** X5: an item without id or without text, or with only white space there,
    never enters the catalog. *)
Theorem merge_item_without_id_or_text (c : PyDict.t) (it : item) :
  it !! "id" = None \/ it !! "text" = None
  \/ all_space (get_str it "id") \/ all_space (get_str it "text") ->
  merge_item c it = c.
Proof.
  intros H. unfold merge_item. cbv zeta.
  assert (E : (key_of it).1 = "" \/ (key_of it).2 = "").
  { unfold key_of, get_str in *. cbn [fst snd].
    destruct H as [H|[H|[H|H]]].
    - left. now rewrite H.
    - right. now rewrite H.
    - left. now apply strip_all_space.
    - right. now apply strip_all_space. }
  destruct E as [-> | ->]; cbn [PyStr.truthy];
    now rewrite ?andb_false_r.
Qed.

Lemma merge_item_without_id_or_text_witness :
  merge_item [] {[ "text" := VStr "A / X" ]} = [].
Proof.
  apply (merge_item_without_id_or_text [] {[ "text" := VStr "A / X" ]}).
  left. reflexivity.
Defined.

Lemma failed_search_no_items post term :
  search_failed (post term) -> fetch_products_for_term post term = [].
Proof.
  unfold fetch_products_for_term, search_failed.
  destruct (post term) as [|st [[items|]|]]; try reflexivity.
  intros [H|[H|H]]; [now rewrite H | discriminate H | discriminate H].
Qed.

Lemma elem_of_catalog_over post order (e : entry) :
  e ∈ PyDict.values
        (fold_left (fun catalog term =>
                      merge_items catalog (fetch_products_for_term post term))
                   order [])
  <-> exists term it,
        term ∈ order /\ it ∈ fetch_products_for_term post term
        /\ key_of it = (entry_id e, entry_text e)
        /\ entry_id e <> "" /\ entry_text e <> "".
Proof.
  rewrite catalog_over.
  change (map entry_of ?l) with (entry_of <$> l).
  rewrite list_elem_of_fmap. split.
  - intros (k & -> & Hk).
    apply elem_of_first_occurrences, list_elem_of_filter in Hk as [[H1 H2] Hk].
    change (map key_of ?l) with (key_of <$> l) in Hk.
    apply list_elem_of_fmap in Hk as (it & -> & Hit).
    apply elem_of_seen in Hit as (term & Hterm & Hit).
    exists term, it. repeat split; assumption.
  - intros (term & it & Hterm & Hit & Hk & H1 & H2).
    exists (key_of it). split; [destruct e; rewrite Hk; reflexivity|].
    apply elem_of_first_occurrences, list_elem_of_filter. split.
    + rewrite Hk. split; assumption.
    + change (map key_of ?l) with (key_of <$> l).
      apply list_elem_of_fmap_2, elem_of_seen. eauto.
Qed.

Lemma key_of_parts_trimmed (it : item) :
  trimmed (key_of it).1 /\ trimmed (key_of it).2.
Proof. split; apply strip_idem. Qed.

(** X6: an entry is in the catalog exactly when some term returned an item
    with this trimmed id and trimmed text, both not empty; the pool changes
    nothing to that. *)
Theorem catalog_membership (post : string -> reply (option payload))
    (e : entry) :
  let found :=
    exists term it,
      term ∈ terms /\ it ∈ fetch_products_for_term post term
      /\ key_of it = (entry_id e, entry_text e)
      /\ entry_id e <> "" /\ entry_text e <> "" in
  (e ∈ Sequential.collect_full_catalog post <-> found)
  /\ (forall ex, Pooled.fair ex ->
        (e ∈ Pooled.collect_full_catalog ex post <-> found))
  /\ (e ∈ Sequential.collect_full_catalog post ->
      trimmed (entry_id e) /\ trimmed (entry_text e)).
Proof.
  intros found. subst found.
  split; [apply elem_of_catalog_over|]. split.
  - intros ex Hfair. unfold Pooled.collect_full_catalog.
    rewrite elem_of_catalog_over.
    destruct (Hfair terms) as [_ Hp].
    split; intros (term & it & Hterm & H); exists term, it;
      (split; [|exact H]); [now rewrite <- Hp | now rewrite Hp].
  - intros He. apply elem_of_catalog_over in He as (term & it & _ & _ & Hk & _).
    pose proof (key_of_parts_trimmed it) as [H1 H2].
    rewrite Hk in H1, H2. auto.
Qed.

Lemma catalog_membership_witness :
  {| entry_id := "7"; entry_text := "ABC / Widget" |}
  ∈ Pooled.collect_full_catalog Pooled.last_first dup_search.
Proof.
  apply (proj1 (proj2 (catalog_membership dup_search
                         {| entry_id := "7"; entry_text := "ABC / Widget" |}))
               Pooled.last_first).
  - intros l. split; [reflexivity | apply reverse_Permutation].
  - exists "00", {[ "id" := VStr "7"; "text" := VStr "ABC / Widget" ]}.
    split; [|split; [|split; [|split]]].
    + vm_compute. left.
    + vm_compute. left.
    + reflexivity.
    + discriminate.
    + discriminate.
Defined.

Lemma fold_terms_to_dict post (order : list string) :
  fold_left (fun catalog term =>
               merge_items catalog (fetch_products_for_term post term)) order []
  = to_dict (first_occurrences (filter usable (map key_of (seen post order)))).
Proof.
  rewrite fold_terms_seen. change (@nil (key * entry)) with (to_dict []).
  now rewrite merge_items_to_dict, app_nil_l, filter_not_in_nil.
Qed.

Lemma values_to_dict (ks : list key) : PyDict.values (to_dict ks) = map entry_of ks.
Proof. unfold PyDict.values, to_dict. now rewrite map_map. Qed.

Lemma catalog_after_prefix post (order : list string) (n m : nat) :
  (n <= m)%nat ->
  catalog_after post order n `prefix_of` catalog_after post order m.
Proof.
  intros Hnm. unfold catalog_after.
  assert (E : take m order = take n order ++ drop n (take m order)).
  { rewrite <- (take_drop n (take m order)) at 1.
    now rewrite take_take, Nat.min_l. }
  rewrite E, fold_left_app, fold_terms_to_dict.
  set (ks := first_occurrences _).
  rewrite fold_terms_seen, merge_items_to_dict, !values_to_dict, map_app.
  now apply prefix_app_r.
Qed.

(** X7: the catalog only grows: after any number of rounds it is the
    beginning of the catalog after more rounds, and of the final catalog. *)
Theorem catalog_only_grows (post : string -> reply (option payload))
    (n m : nat) :
  (n <= m)%nat ->
  catalog_after post terms n `prefix_of` catalog_after post terms m
  /\ catalog_after post terms m `prefix_of` Sequential.collect_full_catalog post
  /\ (forall ex,
        catalog_after post (Pooled.completion ex terms) n
          `prefix_of` catalog_after post (Pooled.completion ex terms) m
        /\ catalog_after post (Pooled.completion ex terms) m
             `prefix_of` Pooled.collect_full_catalog ex post).
Proof.
  intros Hnm.
  assert (Hall : forall order,
            catalog_after post order (Nat.max m (length order))
            = PyDict.values
                (fold_left (fun catalog term =>
                   merge_items catalog (fetch_products_for_term post term))
                   order [])).
  { intros order. unfold catalog_after. now rewrite take_ge by lia. }
  split; [now apply catalog_after_prefix|]. split.
  - unfold Sequential.collect_full_catalog. rewrite <- (Hall terms).
    apply catalog_after_prefix. lia.
  - intros ex. split; [now apply catalog_after_prefix|].
    unfold Pooled.collect_full_catalog.
    rewrite <- (Hall (Pooled.completion ex terms)).
    apply catalog_after_prefix. lia.
Qed.

Lemma catalog_only_grows_witness :
  catalog_after dup_search terms 1 `prefix_of` catalog_after dup_search terms 2.
Proof. apply (catalog_only_grows dup_search 1 2). lia. Defined.

Lemma keys_merge_item (c : PyDict.t) (it : item) (k : key) :
  k ∈ map fst (merge_item c it) <->
  k ∈ map fst c \/ (k = key_of it /\ usable k).
Proof.
  unfold merge_item, PyDict.contains. cbv zeta.
  destruct (bool_decide (key_of it ∈ map fst c)) eqn:Hin; cbn [negb andb].
  - apply bool_decide_eq_true in Hin. split; [auto|].
    intros [H|[-> _]]; assumption.
  - apply bool_decide_eq_false in Hin.
    destruct (PyStr.truthy (key_of it).1) eqn:E1; cbn [andb].
    + destruct (PyStr.truthy (key_of it).2) eqn:E2.
      * rewrite setitem_absent by exact Hin.
        rewrite map_app, elem_of_app. cbn [map fst].
        rewrite list_elem_of_singleton.
        apply truthy_true in E1, E2. unfold usable. split.
        -- intros [H| ->]; [now left | right; auto].
        -- intros [H|[-> _]]; auto.
      * apply truthy_false in E2. split; [auto|].
        intros [H|[-> [_ H]]]; [exact H | contradiction].
    + apply truthy_false in E1. split; [auto|].
      intros [H|[-> [H _]]]; [exact H | contradiction].
Qed.

Lemma merge_item_present (c : PyDict.t) (it : item) :
  key_of it ∈ map fst c \/ ~ usable (key_of it) -> merge_item c it = c.
Proof.
  intros H. unfold merge_item, PyDict.contains. cbv zeta.
  destruct H as [H|H].
  - now rewrite bool_decide_true.
  - destruct (bool_decide _); cbn [negb andb]; [reflexivity|].
    destruct (PyStr.truthy (key_of it).1) eqn:E1; [|reflexivity].
    destruct (PyStr.truthy (key_of it).2) eqn:E2; [|reflexivity].
    apply truthy_true in E1, E2. exfalso. apply H. now split.
Qed.

Lemma merge_items_keys (items : list item) : forall (c : PyDict.t) (k : key),
  k ∈ map fst c -> k ∈ map fst (merge_items c items).
Proof.
  unfold merge_items. induction items as [|it items IH]; intros c k Hk;
    [exact Hk|].
  simpl. apply IH, keys_merge_item. now left.
Qed.

Lemma merge_items_absorbs (items : list item) : forall (c : PyDict.t),
  (forall it, it ∈ items -> key_of it ∈ map fst c \/ ~ usable (key_of it)) ->
  merge_items c items = c.
Proof.
  unfold merge_items. induction items as [|it items IH]; intros c H;
    [reflexivity|].
  simpl. rewrite merge_item_present by (apply H; left).
  apply IH. intros it' Hit'. apply H. now right.
Qed.

Lemma merge_items_covers (items : list item) : forall (c : PyDict.t) (it : item),
  it ∈ items ->
  key_of it ∈ map fst (merge_items c items) \/ ~ usable (key_of it).
Proof.
  induction items as [|x items IH]; intros c it Hit;
    [now apply elem_of_nil in Hit|].
  apply elem_of_cons in Hit as [->|Hit].
  - destruct (decide (usable (key_of x))) as [Hu|Hu]; [left | now right].
    change (merge_items c (x :: items)) with (merge_items (merge_item c x) items).
    apply merge_items_keys, keys_merge_item.
    destruct (decide (key_of x ∈ map fst c)); [now left | right; auto].
  - change (merge_items c (x :: items)) with (merge_items (merge_item c x) items).
    now apply IH.
Qed.

(** X8: merging results that were merged before changes nothing, whatever
    was merged in between. *)
Theorem merge_items_again (c : PyDict.t) (items between : list item) :
  merge_items (merge_items (merge_items c items) between) items
  = merge_items (merge_items c items) between.
Proof.
  apply merge_items_absorbs. intros it Hit.
  destruct (merge_items_covers items c it Hit) as [H|H]; [left | now right].
  now apply merge_items_keys.
Qed.

(** * More on prices *)

(** X9: a price is the trimmed body of a 200 reply, the empty string for any
    other status, and never begins or ends with white space. *)
Theorem fetch_price_trimmed_body :
  (forall text, fetch_price (Response 200 text) = PyStr.strip text)
  /\ (forall status_code text,
        status_code <> 200%Z -> fetch_price (Response status_code text) = "")
  /\ (forall r, trimmed (fetch_price r)).
Proof.
  assert (H200 : forall text, fetch_price (Response 200 text) = PyStr.strip text).
  { intros text. simpl. now destruct (PyStr.strip text). }
  assert (Hne : forall st text, st <> 200%Z -> fetch_price (Response st text) = "").
  { intros st text Hst. simpl. now destruct (Z.eqb_spec st 200). }
  split; [exact H200|]. split; [exact Hne|].
  intros [|st text]; [reflexivity|].
  destruct (decide (st = 200%Z)) as [->|Hst].
  - rewrite H200. apply strip_idem.
  - now rewrite Hne.
Qed.

Lemma first_seen_snoc {A : Type} `{EqDecision A} (l : list A) (x : A) :
  first_seen (l ++ [x])
  = if decide (x ∈ l) then first_seen l else first_seen l ++ [x].
Proof.
  induction l as [|a l IH]; [reflexivity|].
  cbn [app first_seen]. rewrite IH.
  destruct (decide (x = a)) as [->|Hne].
  - rewrite (decide_True (P := a ∈ a :: l)) by left.
    destruct (decide (a ∈ l)); [reflexivity|].
    rewrite filter_app, filter_cons_False by tauto. now rewrite app_nil_r.
  - destruct (decide (x ∈ l)) as [Hin|Hnin].
    + rewrite decide_True by now right. reflexivity.
    + rewrite decide_False by (rewrite elem_of_cons; tauto).
      now rewrite filter_app, filter_cons_True.
Qed.

Lemma sequential_requested_snoc (server : price_server) (catalog : list entry)
    (e : entry) :
  Sequential.requested (Sequential.enrich_loop server (catalog ++ [e]))
  = if decide (entry_id e ∈ map entry_id catalog)
    then Sequential.requested (Sequential.enrich_loop server catalog)
    else Sequential.requested (Sequential.enrich_loop server catalog)
         ++ [entry_id e].
Proof.
  pose proof (sequential_enrichment server catalog) as ((_ & Hmem & _) & Hdom).
  cbv zeta in Hmem, Hdom.
  unfold Sequential.enrich_loop in *. rewrite fold_left_app. cbn [fold_left].
  set (st := fold_left _ catalog _) in *.
  rewrite enrich_step_unfold. cbv zeta.
  destruct (Sequential.id_to_price st !! entry_id e) as [v|] eqn:E; cbn.
  - rewrite decide_True; [reflexivity|]. apply Hmem, Hdom. eauto.
  - rewrite decide_False; [reflexivity|].
    intros H%Hmem%Hdom. rewrite E in H. now destruct H.
Qed.

Lemma sequential_requested (server : price_server) (catalog : list entry) :
  Sequential.requested (Sequential.enrich_loop server catalog)
  = first_seen (map entry_id catalog).
Proof.
  induction catalog as [|e catalog IH] using rev_ind; [reflexivity|].
  rewrite sequential_requested_snoc, map_app. cbn [map].
  now rewrite first_seen_snoc, IH.
Qed.

Lemma unique_ids_snoc (catalog : list entry) (e : entry) :
  (Pooled.build_unique_ids (catalog ++ [e])).2
  = if decide (entry_id e ∈ map entry_id catalog)
    then (Pooled.build_unique_ids catalog).2
    else (Pooled.build_unique_ids catalog).2 ++ [entry_id e].
Proof.
  pose proof (build_unique_ids_spec catalog) as (_ & Hmem & Hm).
  cbv zeta in Hmem, Hm.
  unfold Pooled.build_unique_ids in *. rewrite fold_left_app. cbn [fold_left].
  destruct (fold_left _ catalog _) as [m u]. cbn [fst snd] in *.
  unfold Pooled.unique_step. cbn [fst snd]. rewrite Hm.
  destruct (decide (entry_id e ∈ u)) as [Hin|Hnin].
  - rewrite decide_True by now apply Hmem. reflexivity.
  - rewrite decide_False by (intros H%Hmem; contradiction). reflexivity.
Qed.

Lemma unique_ids_first_seen (catalog : list entry) :
  (Pooled.build_unique_ids catalog).2 = first_seen (map entry_id catalog).
Proof.
  induction catalog as [|e catalog IH] using rev_ind; [reflexivity|].
  rewrite unique_ids_snoc, map_app. cbn [map].
  now rewrite first_seen_snoc, IH.
Qed.

Lemma pooled_requested (ex : Pooled.executor) (server : price_server)
    (catalog : list entry) :
  (Pooled.enrich_with_prices_log ex server catalog).2
  = Pooled.arrival ex (first_seen (map entry_id catalog)).
Proof.
  unfold Pooled.enrich_with_prices_log, Pooled.fetch_all.
  rewrite <- unique_ids_first_seen.
  destruct (Pooled.build_unique_ids catalog) as [m0 u]. cbn [snd].
  pose proof (run_pool_spec server (Pooled.arrival ex u)) as [Hreq _].
  destruct (Pooled.run_pool server (Pooled.arrival ex u)) as [res req].
  exact Hreq.
Qed.

(** X10: the sequential script asks for the prices in the order in which the
    ids first appear in the catalog; the pool submits the same ids in the
    same order, and its requests are these ids in the order of arrival. *)
Theorem price_request_order (server : price_server) (catalog : list entry) :
  Sequential.requested (Sequential.enrich_loop server catalog)
  = first_seen (map entry_id catalog)
  /\ (Pooled.build_unique_ids catalog).2 = first_seen (map entry_id catalog)
  /\ (forall ex,
        (Pooled.enrich_with_prices_log ex server catalog).2
        = Pooled.arrival ex (first_seen (map entry_id catalog))).
Proof.
  split; [apply sequential_requested|].
  split; [apply unique_ids_first_seen|].
  intros ex. apply pooled_requested.
Qed.

Lemma enrichment_same_requests server catalog cache1 cache2 enriched1 enriched2
    requested :
  enrichment_of server catalog cache1 enriched1 requested ->
  enrichment_of server catalog cache2 enriched2 requested ->
  enriched1 = enriched2.
Proof.
  intros (_ & Hmem & Hc1 & ->) (_ & _ & Hc2 & ->).
  apply priced_ext. intros e He.
  assert (Hin : entry_id e ∈ requested)
    by now apply Hmem, (list_elem_of_fmap_2 entry_id).
  apply list_elem_of_split in Hin as (h & t & Hsplit).
  now rewrite (Hc1 h _ t Hsplit), (Hc2 h _ t Hsplit).
Qed.

(** X11: on the same catalog the pool produces the records of the sequential
    script when the price endpoint answers an id the same way whenever it
    is asked, and also, for any endpoint, when the requests reach it in the
    order of submission. *)
Theorem pooled_enrich_refines_sequential (ex : Pooled.executor)
    (catalog : list entry) :
  Pooled.fair ex ->
  (forall prices : string -> reply string,
     Pooled.enrich_with_prices ex (fun _ => prices) catalog
     = Sequential.enrich_with_prices (fun _ => prices) catalog)
  /\ ((forall submitted, Pooled.arrival ex submitted = submitted) ->
      forall server : price_server,
        Pooled.enrich_with_prices ex server catalog
        = Sequential.enrich_with_prices server catalog).
Proof.
  intros Hfair. split.
  - intros prices.
    now rewrite sequential_priced_by, (pooled_priced_by ex prices _ Hfair).
  - intros Harr server.
    destruct (pooled_enrichment ex server catalog Hfair) as [Hp _].
    pose proof (proj1 (sequential_enrichment server catalog)) as Hs.
    cbv zeta in Hs.
    rewrite pooled_requested, Harr, <- (sequential_requested server) in Hp.
    exact (enrichment_same_requests _ _ _ _ _ _ _ Hp Hs).
Qed.

Lemma pooled_enrich_refines_sequential_witness :
  Pooled.enrich_with_prices Pooled.last_first counting_server shared_id_catalog
  = Sequential.enrich_with_prices counting_server shared_id_catalog.
Proof.
  apply (pooled_enrich_refines_sequential Pooled.last_first shared_id_catalog).
  - intros l. split; [reflexivity | apply reverse_Permutation].
  - reflexivity.
Defined.

Lemma parse_name_not_empty (text : string) :
  PyStr.strip text <> "" -> (_parse_code_and_name text).2 <> "".
Proof.
  intros H. rewrite parse_unfold. pose proof (segments_segment_like text) as Hs.
  destruct (segments text) as [|c [|d rest]]; cbn [snd]; try exact H.
  apply Forall_cons in Hs as [_ Hs]. apply Forall_cons in Hs as [(_ & Hd & _) _].
  now apply join_not_empty.
Qed.

Lemma priced_well_formed (cache : gmap string string) (e : entry) :
  PyStr.strip (entry_text e) <> "" ->
  trimmed (default "" (cache !! entry_id e)) ->
  well_formed_record (priced cache e).
Proof.
  intros Ht Hp. unfold well_formed_record, priced. cbn.
  pose proof (parse_result_shape (entry_text e)) as (H1 & H2 & H3 & _).
  split; [now apply parse_name_not_empty|]. auto.
Qed.

Lemma enrichment_well_formed server catalog cache enriched requested :
  enrichment_of server catalog cache enriched requested ->
  Forall (fun e => PyStr.strip (entry_text e) <> "") catalog ->
  Forall well_formed_record enriched.
Proof.
  intros (_ & Hmem & Hcache & ->) Hcat.
  apply Forall_forall. intros r Hr.
  change (map ?f ?l) with (f <$> l) in Hr.
  apply list_elem_of_fmap in Hr as (e & -> & He).
  apply priced_well_formed.
  - exact (proj1 (Forall_forall _ _) Hcat e He).
  - assert (Hin : entry_id e ∈ requested)
      by now apply Hmem, (list_elem_of_fmap_2 entry_id).
    apply list_elem_of_split in Hin as (h & t & Hsplit).
    rewrite (Hcache h _ t Hsplit). apply fetch_price_trimmed_body.
Qed.

Lemma catalog_over_texts post order :
  Forall (fun e => PyStr.strip (entry_text e) <> "")
    (PyDict.values
       (fold_left (fun catalog term =>
                     merge_items catalog (fetch_products_for_term post term))
                  order [])).
Proof.
  apply Forall_forall. intros e He.
  apply elem_of_catalog_over in He as (term & it & _ & _ & Hk & _ & Hne).
  pose proof (key_of_parts_trimmed it) as [_ H2]. rewrite Hk in H2.
  cbn [snd] in H2. unfold trimmed in H2. now rewrite H2.
Qed.

(** X12: every record either script saves has a name that is not empty, a
    trimmed name, a trimmed code without slash and a trimmed price. *)
Theorem saved_records_well_formed (post : string -> reply (option payload))
    (server : price_server) :
  Forall well_formed_record
    (sorted name_code tuple_lt
       (Sequential.enrich_with_prices server
          (Sequential.collect_full_catalog post)))
  /\ (forall ex, Pooled.fair ex ->
        Forall well_formed_record
          (sorted name_code tuple_lt
             (Pooled.enrich_with_prices ex server
                (Pooled.collect_full_catalog ex post)))).
Proof.
  split.
  - rewrite sorted_perm.
    apply (enrichment_well_formed server _ _ _ _
             (proj1 (sequential_enrichment server _))).
    apply catalog_over_texts.
  - intros ex Hfair. rewrite sorted_perm.
    apply (enrichment_well_formed server _ _ _ _
             (proj1 (pooled_enrichment ex server _ Hfair))).
    apply catalog_over_texts.
Qed.

Lemma saved_records_well_formed_witness :
  Forall well_formed_record
    (sorted name_code tuple_lt
       (Pooled.enrich_with_prices Pooled.last_first (fun _ => tie_prices)
          (Pooled.collect_full_catalog Pooled.last_first tie_search))).
Proof.
  apply (proj2 (saved_records_well_formed tie_search (fun _ => tie_prices))).
  intros l. split; [reflexivity | apply reverse_Permutation].
Defined.

(** * More on sorting and saving *)

Lemma Sorted_key_le_of_lex (l : list enriched_product) :
  Sorted (fun p q => lex_le (name_code p) (name_code q)) l ->
  Sorted (key_le name_code tuple_lt) l.
Proof.
  induction 1 as [|x l Hs IH Hhd]; constructor; [exact IH|].
  destruct Hhd as [|y l Hxy]; constructor. now apply tuple_lt_lex_le.
Qed.

(** X13: sorting leaves a sorted list as it is, so sorting twice is sorting
    once. *)
Theorem sorted_again (l : list enriched_product) :
  (Sorted (fun p q => lex_le (name_code p) (name_code q)) l ->
   sorted name_code tuple_lt l = l)
  /\ sorted name_code tuple_lt (sorted name_code tuple_lt l)
     = sorted name_code tuple_lt l.
Proof.
  assert (H : forall l' : list enriched_product,
            Sorted (key_le name_code tuple_lt) l' ->
            sorted name_code tuple_lt l' = l').
  { intros l' Hs. symmetry.
    now apply (sorted_unique name_code tuple_lt
                 tuple_lt_irrefl tuple_lt_trans tuple_lt_total). }
  split.
  - intros Hs. now apply H, Sorted_key_le_of_lex.
  - apply H, (sorted_Sorted name_code tuple_lt tuple_lt_irrefl tuple_lt_trans).
Qed.

Lemma sorted_again_witness :
  sorted name_code tuple_lt
    [product_of "Apple" "1" "10"; product_of "Apple" "1" "5"]
  = [product_of "Apple" "1" "10"; product_of "Apple" "1" "5"].
Proof.
  apply (proj1 (sorted_again _)).
  apply Sorted_cons; [apply Sorted_cons; [apply Sorted_nil | apply HdRel_nil]|].
  apply HdRel_cons. right. split; [reflexivity|]. vm_compute. exact I.
Defined.

Lemma sequential_save_json_ok (dump : list enriched_product -> string)
    (products : list enriched_product) (fs : filesystem) :
  is_dir fs (path_of "products.json") = false ->
  Sequential.save_json dump products fs
  = Some (<[path_of "products.json" :=
              File (dump (sorted name_code tuple_lt products))]> fs,
          sorted name_code tuple_lt products).
Proof.
  intros H. unfold Sequential.save_json.
  rewrite open_write_ok, bind_Some; [reflexivity | reflexivity | exact H].
Qed.

Lemma pooled_save_json_ok (dump : list enriched_product -> string)
    (products : list enriched_product) (fs : filesystem) :
  is_file fs (path_of "data") = false ->
  is_dir fs (path_of "data/products.json") = false ->
  Pooled.save_json dump products fs
  = Some (<[path_of "data/products.json" :=
              File (dump (sorted name_code tuple_lt products))]>
            (<[path_of "data" := Dir]> fs),
          sorted name_code tuple_lt products).
Proof.
  intros Hf Hd. unfold Pooled.save_json.
  rewrite (makedirs_data_ok fs Hf), bind_Some. cbv beta.
  rewrite open_write_ok, bind_Some; [reflexivity| |].
  - unfold is_dir at 1. change (parent _) with ["data"].
    now rewrite lookup_insert_eq.
  - apply is_dir_insert_ne; [exact Hd | discriminate].
Qed.

Lemma open_write_fails (name content : string) (fs : filesystem) :
  is_dir fs (path_of name) = true -> open_write name content fs = None.
Proof. intros H. unfold open_write. rewrite H. now rewrite andb_false_r. Qed.

Lemma makedirs_data_fails (fs : filesystem) :
  is_file fs (path_of "data") = true -> makedirs "data" fs = None.
Proof.
  rewrite makedirs_data. unfold is_file. change (path_of "data") with ["data"].
  now destruct (fs !! ["data"]) as [[|c]|].
Qed.

Lemma is_dir_insert_dir_ne (fs : filesystem) (p q : list string) (n : node) :
  p <> q -> is_dir (<[q := n]> fs) p = is_dir fs p.
Proof.
  intros Hne. unfold is_dir. destruct p; [reflexivity|].
  now rewrite lookup_insert_ne by congruence.
Qed.

(** X14: [save_json] fails, with an exception nobody catches, exactly when
    [products.json] is a directory or, in the thread-pool script, when
    [data] is a file. *)
Theorem save_json_fails_iff (dump : list enriched_product -> string)
    (products : list enriched_product) (fs : filesystem) :
  (Sequential.save_json dump products fs = None
   <-> is_dir fs (path_of "products.json") = true)
  /\ (Pooled.save_json dump products fs = None
      <-> is_file fs (path_of "data") = true
          \/ is_dir fs (path_of "data/products.json") = true).
Proof.
  split.
  - destruct (is_dir fs (path_of "products.json")) eqn:E.
    + split; [reflexivity|]. intros _. unfold Sequential.save_json.
      now rewrite open_write_fails.
    + rewrite sequential_save_json_ok by exact E. split; discriminate.
  - destruct (is_file fs (path_of "data")) eqn:Ef.
    + split; [auto|]. intros _. unfold Pooled.save_json.
      now rewrite makedirs_data_fails.
    + destruct (is_dir fs (path_of "data/products.json")) eqn:Ed.
      * split; [auto|]. intros _. unfold Pooled.save_json.
        rewrite (makedirs_data_ok fs Ef), bind_Some. cbv beta.
        rewrite open_write_fails; [reflexivity|].
        now rewrite is_dir_insert_dir_ne by discriminate.
      * rewrite pooled_save_json_ok by assumption.
        split; [discriminate | intros [H|H]; discriminate H].
Qed.

Lemma is_dir_insert_file_self (fs : filesystem) (p : list string) (c : string) :
  p <> [] -> is_dir (<[p := File c]> fs) p = false.
Proof.
  intros Hne. unfold is_dir. destruct p; [contradiction|].
  now rewrite lookup_insert_eq.
Qed.

(** X15: saving the same records again changes nothing: the second call
    succeeds and leaves the file system of the first. *)
Theorem save_json_twice (dump : list enriched_product -> string)
    (products out : list enriched_product) (fs fs1 : filesystem) :
  (Sequential.save_json dump products fs = Some (fs1, out) ->
   Sequential.save_json dump products fs1 = Some (fs1, out))
  /\ (Pooled.save_json dump products fs = Some (fs1, out) ->
      Pooled.save_json dump products fs1 = Some (fs1, out)).
Proof.
  split.
  - intros H. apply sequential_save_json_inv in H as [-> ->].
    rewrite sequential_save_json_ok.
    + now rewrite insert_insert_eq.
    + now apply is_dir_insert_file_self.
  - intros H.
    destruct (is_file fs (path_of "data")) eqn:Ef.
    { unfold Pooled.save_json in H. rewrite makedirs_data_fails in H by exact Ef.
      discriminate H. }
    destruct (is_dir fs (path_of "data/products.json")) eqn:Ed.
    { assert (Pooled.save_json dump products fs = None) as E.
      { apply save_json_fails_iff. now right. }
      rewrite E in H. discriminate H. }
    rewrite pooled_save_json_ok in H by assumption. injection H as <- <-.
    rewrite pooled_save_json_ok.
    + f_equal. f_equal. apply map_eq. intros p.
      rewrite !lookup_insert. now repeat case_decide.
    + unfold is_file. now rewrite lookup_insert_ne, lookup_insert_eq by discriminate.
    + now apply is_dir_insert_file_self.
Qed.

Lemma save_json_twice_witness :
  Pooled.save_json (fun _ => "[]") []
    (<[path_of "data/products.json" := File "[]"]>
       (<[path_of "data" := Dir]> (∅ : filesystem)))
  = Some (<[path_of "data/products.json" := File "[]"]>
            (<[path_of "data" := Dir]> (∅ : filesystem)), []).
Proof.
  apply (proj2 (save_json_twice (fun _ => "[]") [] [] ∅ _)).
  exact (pooled_save_json_ok (fun _ => "[]") [] ∅ eq_refl eq_refl).
Defined.

(** * The whole run *)






Lemma seen_all_failed post (order : list string) :
  (forall term, term ∈ order -> search_failed (post term)) ->
  seen post order = [].
Proof.
  unfold seen. induction order as [|t order IH]; intros H; [reflexivity|].
  simpl. rewrite failed_search_no_items by (apply H; left).
  apply IH. intros term Hterm. apply H. now right.
Qed.

(** X18: when every search request fails the catalog is empty, no price is
    requested and the list to save is empty, in both scripts. *)
Theorem nothing_found (search : string -> reply (option payload))
    (server : price_server) :
  (forall term, term ∈ terms -> search_failed (search term)) ->
  Sequential.collect_full_catalog search = []
  /\ Sequential.requested
       (Sequential.enrich_loop server (Sequential.collect_full_catalog search))
     = []
  /\ sequential_products search server = []
  /\ (forall ex, Pooled.fair ex ->
        Pooled.collect_full_catalog ex search = []
        /\ (Pooled.enrich_with_prices_log ex server
              (Pooled.collect_full_catalog ex search)).2 = Pooled.arrival ex []
        /\ pooled_products ex search server = []).
Proof.
  intros Hfail.
  assert (Hs : Sequential.collect_full_catalog search = []).
  { unfold Sequential.collect_full_catalog.
    now rewrite catalog_over, seen_all_failed. }
  split; [exact Hs|]. unfold sequential_products. rewrite Hs.
  split; [reflexivity|]. split; [reflexivity|].
  intros ex Hfair.
  assert (Hp : Pooled.collect_full_catalog ex search = []).
  { unfold Pooled.collect_full_catalog. rewrite catalog_over, seen_all_failed;
      [reflexivity|].
    intros term Hterm. apply Hfail. destruct (Hfair terms) as [_ H].
    now rewrite <- H. }
  split; [exact Hp|]. unfold pooled_products. rewrite Hp.
  split; [now rewrite pooled_requested|].
  destruct (pooled_enrichment ex server [] Hfair) as [(_ & _ & _ & He) _].
  unfold Pooled.enrich_with_prices. now rewrite He.
Qed.

Lemma nothing_found_witness :
  Sequential.collect_full_catalog (fun _ => Response 404 None) = [].
Proof.
  exact (proj1 (nothing_found (fun _ => Response 404 None) (fun _ _ => Raises)
                  (fun term _ => or_introl eq_refl))).
Defined.

(** * More on [login] *)

(** X19: without both credentials [login] sends nothing; with them it sends
    the beginning of the handshake, at least the request with the user name
    alone, and the whole handshake before it returns a session. *)
Theorem login_requests (environ : gmap string string)
    (post : form -> reply unit) :
  ((login environ post).2 = [] <-> (login environ post).1 = SysExit 2)
  /\ (forall user pass, credentials environ user pass ->
        (login environ post).2
          `prefix_of` [first_request user; second_request user pass]
        /\ (login environ post).2 <> []
        /\ ((login environ post).1 = Session ->
            (login environ post).2
            = [first_request user; second_request user pass])).
Proof.
  split.
  - unfold login. destruct (_ || _); [split; reflexivity|].
    destruct (post _); [split; discriminate|].
    destruct (post _); [split; discriminate|].
    destruct (raise_for_status _); split; discriminate.
  - intros user pass Hc. rewrite (login_with_credentials _ post _ _ Hc).
    destruct (post (first_request user)).
    + split; [now exists [second_request user pass]|].
      split; discriminate.
    + destruct (post (second_request user pass)) as [|st b].
      * split; [reflexivity|]. split; discriminate.
      * destruct (raise_for_status st);
          (split; [reflexivity|]); split; (discriminate || reflexivity).
Qed.

Lemma login_requests_witness :
  (login {[ "ISLANDSUN_USERNAME" := "u"; "ISLANDSUN_PASSWORD" := "p" ]}
         (fun _ => Response 200 ())).2
  = [first_request "u"; second_request "u" "p"].
Proof.
  apply (proj2 (login_requests _ (fun _ => Response 200 ())) "u" "p").
  - repeat split; (reflexivity || discriminate).
  - reflexivity.
Defined.

Lemma seen_ext post post' (order : list string) :
  (forall term, term ∈ order -> post term = post' term) ->
  seen post order = seen post' order.
Proof.
  unfold seen. induction order as [|t order IH]; intros H; [reflexivity|].
  simpl. unfold fetch_products_for_term at 1 3.
  rewrite (H t) by left. f_equal. apply IH.
  intros term Hterm. apply H. now right.
Qed.

(** X20: the catalog depends on the search endpoint only through its replies
    to the 1296 terms: two endpoints that agree on them give the same
    catalog, in both scripts. *)
Theorem catalog_depends_on_terms_only
    (post post' : string -> reply (option payload)) :
  (forall term, term ∈ terms -> post term = post' term) ->
  Sequential.collect_full_catalog post = Sequential.collect_full_catalog post'
  /\ (forall ex, Pooled.fair ex ->
        Pooled.collect_full_catalog ex post
        = Pooled.collect_full_catalog ex post').
Proof.
  intros H. split.
  - unfold Sequential.collect_full_catalog.
    now rewrite !catalog_over, (seen_ext post post' terms H).
  - intros ex Hfair. unfold Pooled.collect_full_catalog.
    rewrite !catalog_over, (seen_ext post post' (Pooled.completion ex terms));
      [reflexivity|].
    intros term Hterm. apply H. destruct (Hfair terms) as [_ Hp].
    now rewrite <- Hp.
Qed.

Lemma catalog_depends_on_terms_only_witness :
  Sequential.collect_full_catalog
    (fun term => if String.eqb term "not a term" then Raises else dup_search term)
  = Sequential.collect_full_catalog dup_search.
Proof.
  refine (proj1 (catalog_depends_on_terms_only _ dup_search _)).
  intros term Hterm. destruct (String.eqb_spec term "not a term") as [->|];
    [|reflexivity].
  exfalso. revert Hterm. apply (bool_decide_eq_false_1 _). vm_compute.
  reflexivity.
Defined.
